(** * AI Lecture Copilot: the analytical core of the backend services

    A shallow embedding of
      - [services/alignment_service.py]      (coverage estimation),
      - [services/concept_detector.py]       (concept filter, gap analysis),
      - [services/misconception_detector.py] (contradiction detection),
    and the statements of the specification settled against it.

    Modelling conventions.
      - A Python [str] is a list of characters [str := list ascii]; a
        character stands for the code point of the same number, so the model
        covers text over the code points 0..255.  The character classes
        ([str.isspace], [\d], [\w], [str.lower]) are Python's Unicode tables
        restricted to that range.  A regular expression of the source is a
        recursive function that scans the string the way the expression
        matches: leftmost, greedy.
      - A similarity score is an exact rational [Q].  The code compares
        scores against constants and against sums of scores only; rounding
        is not modelled.  The stop-word ratio is a quotient of two small
        counts compared with [0.65], where exact and rounded arithmetic
        agree.
      - A Python [set] of strings is a [gset str]; where the code iterates a
        set into a list ([list(s)]) the enumeration order is a parameter.
      - A subscript that can raise [IndexError] is a lookup in the option
        monad, [None] standing for the raised error.
      - The sentence encoder, the slide store and the text-understanding
        client are external capabilities; they are parameters of the model.
        So are the two concept extraction strategies, whose results only pass
        through the model. *)

From Stdlib Require Import QArith Qminmax Lqa Ascii.
From stdpp Require Import base list gmap strings sorting.

Local Open Scope Q_scope.
Local Open Scope nat_scope.

(** ** Python strings *)

Abbreviation str := (list ascii).

(** A string literal of the source. *)
Definition py (s : String.string) : str := String.list_ascii_of_string s.

Module Char.

Definition code (c : ascii) : N := N_of_ascii c.

Definition between (lo hi : N) (c : ascii) : bool :=
  ((lo <=? code c) && (code c <=? hi))%N.

(** [str.isspace] on one character, which is also [\s] of a [str] pattern
    and the set [str.strip()] and [str.split()] use: TAB..CR, FS..US,
    SPACE, NEL and NBSP. *)
Definition isspace (c : ascii) : bool :=
  between 9 13 c || between 28 32 c || (code c =? 133)%N || (code c =? 160)%N.

(** [\d] of a [str] pattern: the decimal digits (category Nd). *)
Definition isdigit (c : ascii) : bool := between 48 57 c.

Definition isupper_az (c : ascii) : bool := between 65 90 c.
Definition islower_az (c : ascii) : bool := between 97 122 c.
Definition isalpha_az (c : ascii) : bool := isupper_az c || islower_az c.

(** [\w] of a [str] pattern: alphanumeric in the Unicode sense, or [_]. *)
Definition isword (c : ascii) : bool :=
  isalpha_az c || isdigit c || (code c =? 95)%N
  || (code c =? 170)%N || (code c =? 181)%N || (code c =? 186)%N
  || between 178 179 c || (code c =? 185)%N || between 188 190 c
  || between 192 214 c || between 216 246 c || between 248 255 c.

(** [str.lower] on one character. *)
Definition lower (c : ascii) : ascii :=
  if isupper_az c || between 192 214 c || between 216 222 c
  then ascii_of_N (code c + 32) else c.

(** The class [[\d\.\)\-]] of the numbering prefix. *)
Definition isbullet (c : ascii) : bool :=
  isdigit c || (code c =? 46)%N || (code c =? 41)%N || (code c =? 45)%N.

(** The class [[.!?]] of sentence terminators. *)
Definition isterminator (c : ascii) : bool :=
  (code c =? 46)%N || (code c =? 33)%N || (code c =? 63)%N.

End Char.

Module Str.

Fixpoint take_while (p : ascii → bool) (s : str) : str :=
  match s with
  | c :: s' => if p c then c :: take_while p s' else []
  | [] => []
  end.

Fixpoint drop_while (p : ascii → bool) (s : str) : str :=
  match s with
  | c :: s' => if p c then drop_while p s' else s
  | [] => []
  end.

(** [s.lstrip()], [s.rstrip()], [s.strip()]. *)
Definition lstrip (s : str) : str := drop_while Char.isspace s.
Definition rstrip (s : str) : str := reverse (drop_while Char.isspace (reverse s)).
Definition strip (s : str) : str := rstrip (lstrip s).

(** [s.lower()]. *)
Definition lower (s : str) : str := map Char.lower s.

(** [s.startswith(p)]. *)
Fixpoint startswith (p s : str) : bool :=
  match p, s with
  | [], _ => true
  | a :: p', b :: s' => if decide (a = b) then startswith p' s' else false
  | _ :: _, [] => false
  end.

(** [p in s]. *)
Fixpoint contains (p s : str) : bool :=
  startswith p s ||
  match s with
  | [] => false
  | _ :: s' => contains p s'
  end.

(** [s.split()]: the maximal runs of non-whitespace characters. *)
Fixpoint split_go (cur : str) (s : str) : list str :=
  match s with
  | [] => match cur with [] => [] | _ => [reverse cur] end
  | c :: s' =>
      if Char.isspace c
      then match cur with
           | [] => split_go [] s'
           | _ => reverse cur :: split_go [] s'
           end
      else split_go (c :: cur) s'
  end.
Definition split (s : str) : list str := split_go [] s.

(** [sep.join(parts)]. *)
Fixpoint join (sep : str) (parts : list str) : str :=
  match parts with
  | [] => []
  | [p] => p
  | p :: ps => p ++ sep ++ join sep ps
  end.

End Str.

(** ** Scores *)

(** [a > b] and [a < b] on scores. *)
Definition Qgtb (a b : Q) : bool := negb (Qle_bool a b).
Definition Qltb (a b : Q) : bool := negb (Qle_bool b a).

(** The builtin [sum] of a list of scores: a left fold from [0]. *)
Definition py_sum (l : list Q) : Q := fold_left Qplus l 0%Q.

(** [enumerate(l)]. *)
Definition enumerate {A} (l : list A) : list (nat * A) := zip (seq 0 (length l)) l.

(** ** The embedding service ([services/embedding_service.py])

    [encode] is the sentence encoder applied to one text; [similarity] is the
    cosine similarity of two embeddings. *)
Class EmbeddingService := {
  Emb : Type;
  encode : str → Emb;
  similarity : Emb → Emb → Q
}.

Definition embed `{EmbeddingService} (text : str) : Emb := encode text.
Definition embed_batch `{EmbeddingService} (texts : list str) : list Emb :=
  map encode texts.

(** A stored slide, as [main.py] builds it. *)
Record Slide `{EmbeddingService} := {
  slide_index : nat;
  text : str;
  embedding : Emb
}.

(** ** Coverage ([services/alignment_service.py]) *)

Module AlignmentService.

Definition similarity_threshold : Q := 3 # 10.

(** The first loop of [find_covered_slides]: the state is
    [(max_cumulative, best_index)]. *)
Definition cumulative_step (similarities : list Q) (st : Q * nat) (i : nat) : Q * nat :=
  let '(max_cumulative, best_index) := st in
  let cumulative := py_sum (take (i + 1) similarities) in
  if Qgtb cumulative max_cumulative then (cumulative, i) else (max_cumulative, best_index).

Definition cumulative_loop (similarities : list Q) : Q * nat :=
  fold_left (cumulative_step similarities) (seq 0 (length similarities)) (0%Q, 0).

(** The second loop: the state is [best_index]. *)
Definition threshold_step (best_index : nat) (e : nat * Q) : nat :=
  let '(i, sim) := e in
  if Qgtb sim similarity_threshold then Nat.max best_index i else best_index.

Definition threshold_loop (similarities : list Q) (best_index : nat) : nat :=
  fold_left threshold_step (enumerate similarities) best_index.

(** Lines 36-53: from the similarities to the returned index. *)
Definition covered_index (similarities : list Q) : nat :=
  let '(_, best_index) := cumulative_loop similarities in
  threshold_loop similarities best_index.

Section WithServices.
Context `{ES : EmbeddingService}.
(** [vector_store.get_slides]: the stored slides, or [None]. *)
Variable get_slides : str → option (list Slide).

Definition find_covered_slides (slide_id : str) (notes_embedding : Emb) : nat :=
  match get_slides slide_id with
  | None | Some [] => 0
  | Some slide_data =>
      let similarities :=
        map (fun slide => similarity notes_embedding (embedding slide)) slide_data in
      covered_index similarities
  end.
End WithServices.

End AlignmentService.

(** ** Concepts ([services/concept_detector.py]) *)

Module ConceptDetector.

(** [re.search(r"\d", s)]. *)
Definition search_digit (s : str) : bool := existsb Char.isdigit s.

(** What [\b] needs after a word character: the end of the string or a
    character outside [\w]. *)
Definition boundary_after (rest : str) : bool :=
  match rest with
  | [] => true
  | c :: _ => negb (Char.isword c)
  end.

(** [re.search(r"\b[A-Z][a-z]+\b", s)].  [prev_word] tells whether the
    character before the position is in [\w]. *)
Fixpoint search_capitalized_go (prev_word : bool) (s : str) : bool :=
  match s with
  | [] => false
  | c :: s' =>
      (negb prev_word && Char.isupper_az c
       && negb (bool_decide (Str.take_while Char.islower_az s' = []))
       && boundary_after (Str.drop_while Char.islower_az s'))
      || search_capitalized_go (Char.isword c) s'
  end.
Definition search_capitalized (s : str) : bool := search_capitalized_go false s.

(** [re.search(r"\bW\b", s)] for a literal [W] of word characters. *)
Fixpoint search_word_go (w : str) (prev_word : bool) (s : str) : bool :=
  (negb prev_word && Str.startswith w s && boundary_after (drop (length w) s))
  || match s with
     | [] => false
     | c :: s' => search_word_go w (Char.isword c) s'
     end.
Definition search_word (w s : str) : bool := search_word_go w false s.

(** [re.search(r"[A-Za-z]{3,}", s)]. *)
Fixpoint search_alpha3 (s : str) : bool :=
  match s with
  | a :: s' =>
      match s' with
      | b :: c :: _ =>
          (Char.isalpha_az a && Char.isalpha_az b && Char.isalpha_az c)
          || search_alpha3 s'
      | _ => false
      end
  | [] => false
  end.

(** The glyphs of the pattern [[•▪◦]], by code point. *)
Definition bullet_glyphs : list N := [8226%N; 9642%N; 9702%N].
Definition search_glyph (s : str) : bool :=
  existsb (fun c => existsb (N.eqb (Char.code c)) bullet_glyphs) s.

(** [any(re.search(pattern, s) for pattern in noise_patterns)]. *)
Definition noise_patterns : list (str → bool) :=
  [ search_glyph;
    Str.contains (py "--");
    Str.contains (py "___");
    search_word (py "slide");
    search_word (py "page");
    search_word (py "figure");
    search_word (py "table");
    search_word (py "university");
    search_word (py "department") ].
Definition is_noise (s : str) : bool :=
  existsb (fun pattern => pattern s) noise_patterns.

Definition stop_words : gset str :=
  list_to_set (map py
    [ "the"; "and"; "or"; "but"; "in"; "on"; "at"; "to"; "for"; "of";
      "with"; "by"; "a"; "an"; "is"; "are"; "was"; "were" ]%string).

(** [re.sub(r"^[\d\.\)\-]+\s*", "", s)]. *)
Definition strip_numbering (s : str) : str :=
  match Str.take_while Char.isbullet s with
  | [] => s
  | _ => Str.drop_while Char.isspace (Str.drop_while Char.isbullet s)
  end.

(** [sum(1 for w in words if w in stop_words) / len(words)]. *)
Definition stopword_ratio (words : list str) : Q :=
  (inject_Z (Z.of_nat (length (filter (λ w, w ∈ stop_words) words)))
   / inject_Z (Z.of_nat (length words)))%Q.

(** The body of the loop of [_filter_concepts]: [None] where the code
    [continue]s, [Some concept_clean] where it adds to [filtered]. *)
Definition clean_concept (concept : str) : option str :=
  if bool_decide (concept = []) then None else
  let concept_clean := Str.strip concept in
  if bool_decide (concept_clean = []) then None else
  let concept_clean := strip_numbering concept_clean in
  if (length concept_clean <? 6)
     && negb (search_digit concept_clean)
     && negb (search_capitalized concept_clean) then None else
  if is_noise (Str.lower concept_clean) then None else
  let words := Str.split (Str.lower concept_clean) in
  if bool_decide (words = []) then None else
  if Qgtb (stopword_ratio words) (65 # 100) && (length words <? 5) then None else
  if negb (search_alpha3 concept_clean) then None else
  Some concept_clean.

Definition _filter_concepts (concepts : gset str) : gset str :=
  if decide (concepts = ∅) then ∅ else set_omap clean_concept concepts.

Definition similarity_threshold : Q := 75 # 100.

Section WithServices.
Context `{ES : EmbeddingService}.
(** [list(s)] for a set [s]: the order in which Python iterates it. *)
Variable to_list : gset str → list str.

(** The inner loop of [find_missing_concepts]: the state is
    [max_similarity]. *)
Definition max_similarity_to (notes_embeddings : list Emb) (missing_emb : Emb) : Q :=
  fold_left (fun max_similarity note_emb =>
               Qmax max_similarity (similarity missing_emb note_emb))
            notes_embeddings 0%Q.

(** The outer loop: the state is [truly_missing], or [None] after an
    [IndexError]. *)
Definition missing_step (missing_embeddings notes_embeddings : list Emb)
    (st : option (list str)) (e : nat * str) : option (list str) :=
  let '(i, missing_concept) := e in
  truly_missing ← st;
  missing_emb ← missing_embeddings !! i;
  let max_similarity := max_similarity_to notes_embeddings missing_emb in
  if Qltb max_similarity similarity_threshold
  then Some (truly_missing ++ [missing_concept])
  else Some truly_missing.

Definition find_missing_concepts (lecture_concepts notes_concepts : gset str)
    : option (list str) :=
  let lecture_concepts := _filter_concepts lecture_concepts in
  let notes_concepts := _filter_concepts notes_concepts in
  let missing := lecture_concepts ∖ notes_concepts in
  if decide (missing = ∅) then Some [] else
  let missing_list := to_list missing in
  let notes_list := to_list notes_concepts in
  if bool_decide (notes_list = []) then Some (take 10 missing_list) else
  let missing_embeddings := embed_batch missing_list in
  let notes_embeddings := embed_batch notes_list in
  truly_missing ←
    fold_left (missing_step missing_embeddings notes_embeddings)
              (enumerate missing_list) (Some []);
  Some (take 10 truly_missing).

(** The two extraction strategies, [_extract_with_llm] and
    [_extract_from_text_fallback], and the configuration flag. *)
Variable use_llm : bool.
Variable _extract_with_llm : str → gset str.
Variable _extract_from_text_fallback : str → gset str.

Definition extract_concepts_from_text (text : str) : gset str :=
  if bool_decide (Str.strip text = []) then ∅ else
  let concepts :=
    if use_llm then _extract_with_llm text else _extract_from_text_fallback text in
  _filter_concepts concepts.
End WithServices.

End ConceptDetector.

(** ** Misconceptions ([services/misconception_detector.py]) *)

Module Misconception.
(** An entry of the list [detect] returns. *)
Record t := { text : str; suggestion : str; position : nat }.
End Misconception.

Module MisconceptionDetector.

Definition contradiction_threshold : Q := 3 # 10.

(** [re.split(r'[.!?]\s+', text)].  [skipping] holds inside the [\s+] of a
    match; [cur] is the fragment read so far, reversed. *)
Fixpoint re_split_go (skipping : bool) (cur : str) (s : str) : list str :=
  match s with
  | [] => [reverse cur]
  | c :: s' =>
      if skipping && Char.isspace c then re_split_go true [] s'
      else
        match s' with
        | w :: s'' =>
            if Char.isterminator c && Char.isspace w
            then reverse cur :: re_split_go true [] s''
            else re_split_go false (c :: cur) s'
        | [] => re_split_go false (c :: cur) s'
        end
  end.
Definition re_split (text : str) : list str := re_split_go false [] text.

Definition _split_into_sentences (text : str) : list str :=
  map Str.strip (filter (λ s, 10 < length (Str.strip s)) (re_split text)).

(** [re.findall(r'\d+\.?\d*', s)]. *)
Inductive number_state :=
| Outside
| InInteger (cur : str)
| InFraction (cur : str).

Fixpoint findall_numbers_go (st : number_state) (s : str) : list str :=
  match s with
  | [] =>
      match st with
      | Outside => []
      | InInteger cur | InFraction cur => [reverse cur]
      end
  | c :: s' =>
      match st with
      | Outside =>
          if Char.isdigit c then findall_numbers_go (InInteger [c]) s'
          else findall_numbers_go Outside s'
      | InInteger cur =>
          if Char.isdigit c then findall_numbers_go (InInteger (c :: cur)) s'
          else if (Char.code c =? 46)%N then findall_numbers_go (InFraction (c :: cur)) s'
          else reverse cur :: findall_numbers_go Outside s'
      | InFraction cur =>
          if Char.isdigit c then findall_numbers_go (InFraction (c :: cur)) s'
          else reverse cur :: findall_numbers_go Outside s'
      end
  end.
Definition findall_numbers (s : str) : list str := findall_numbers_go Outside s.

Definition contradiction_words : list (str * str) :=
  [ (py "not", py "is"); (py "no", py "yes"); (py "never", py "always");
    (py "cannot", py "can"); (py "wrong", py "correct");
    (py "incorrect", py "correct") ].

(** The loop over [contradiction_words]: the state is
    [contradiction_score]. *)
Definition negation_step (note_lower lecture_lower : str)
    (contradiction_score : Q) (p : str * str) : Q :=
  let '(neg_word, pos_word) := p in
  if Str.contains neg_word note_lower && Str.contains pos_word lecture_lower
  then (contradiction_score + (3 # 10))%Q
  else if Str.contains pos_word note_lower && Str.contains neg_word lecture_lower
  then (contradiction_score + (3 # 10))%Q
  else contradiction_score.

Definition _extract_correction (lecture_sentence : str) : str :=
  take 200 lecture_sentence.

(** [s.split("|", 1)]. *)
Fixpoint split_bar_go (cur : str) (s : str) : list str :=
  match s with
  | [] => [reverse cur]
  | c :: s' =>
      if (Char.code c =? 124)%N then [reverse cur; s']
      else split_bar_go (c :: cur) s'
  end.
Definition split_bar (s : str) : list str := split_bar_go [] s.

Section WithServices.
Context `{ES : EmbeddingService}.
Variable use_llm : bool.
(** The chat completion behind [_check_with_llm], as a function of what
    the prompt is built from: the note sentence, the lecture sentence and
    [full_lecture[:1000]].  [None] stands for a raised exception. *)
Variable chat_completion : str → str → str → option str.

Definition _check_contradiction (note_sentence lecture_sentence : str) : Q :=
  let note_lower := Str.lower note_sentence in
  let lecture_lower := Str.lower lecture_sentence in
  let contradiction_score :=
    fold_left (negation_step note_lower lecture_lower) contradiction_words 0%Q in
  let note_numbers := findall_numbers note_sentence in
  let lecture_numbers := findall_numbers lecture_sentence in
  let contradiction_score :=
    if negb (bool_decide (note_numbers = [])) && negb (bool_decide (lecture_numbers = []))
    then
      if bool_decide (size ((list_to_set note_numbers : gset str)
                              ∩ list_to_set lecture_numbers) = 0)
      then
        let note_emb := embed note_sentence in
        let lecture_emb := embed lecture_sentence in
        let similarity := similarity note_emb lecture_emb in
        if Qgtb similarity (6 # 10)
        then (contradiction_score + (4 # 10))%Q
        else contradiction_score
      else contradiction_score
    else contradiction_score in
  Qmin contradiction_score 1.

Definition _check_with_llm (note_sentence lecture_sentence full_lecture : str)
    : bool * str :=
  match chat_completion note_sentence lecture_sentence (take 1000 full_lecture) with
  | Some content =>
      let result := Str.strip content in
      if Str.startswith (py "YES") result then
        let parts := split_bar result in
        let correction :=
          match parts with
          | _ :: p1 :: _ => Str.strip p1
          | _ => take 150 lecture_sentence
          end in
        (true, correction)
      else (false, [])
  | None =>
      let contradiction_score := _check_contradiction note_sentence lecture_sentence in
      if Qgtb contradiction_score contradiction_threshold
      then (true, _extract_correction lecture_sentence)
      else (false, [])
  end.

(** The inner loop of [detect]: the state is
    [(max_similarity, best_lecture_idx)]. *)
Definition best_match_step (note_emb : Emb) (st : Q * Z) (e : nat * Emb) : Q * Z :=
  let '(max_similarity, best_lecture_idx) := st in
  let '(j, lecture_emb) := e in
  let similarity := similarity note_emb lecture_emb in
  if Qgtb similarity max_similarity then (similarity, Z.of_nat j)
  else (max_similarity, best_lecture_idx).

Definition best_match (note_emb : Emb) (lecture_embeddings : list Emb) : Q * Z :=
  fold_left (best_match_step note_emb) (enumerate lecture_embeddings) (0%Q, (-1)%Z).

(** The outer loop of [detect]: the state is [misconceptions], or [None]
    after an [IndexError]. *)
Definition detect_step (lecture_text : str) (lecture_sentences : list str)
    (note_embeddings lecture_embeddings : list Emb)
    (st : option (list Misconception.t)) (e : nat * str)
    : option (list Misconception.t) :=
  let '(i, note_sentence) := e in
  misconceptions ← st;
  note_emb ← note_embeddings !! i;
  let '(max_similarity, best_lecture_idx) := best_match note_emb lecture_embeddings in
  if Qgtb max_similarity (5 # 10) && (0 <=? best_lecture_idx)%Z then
    lecture_sentence ← lecture_sentences !! Z.to_nat best_lecture_idx;
    if use_llm then
      let '(is_misconception, correction) :=
        _check_with_llm note_sentence lecture_sentence lecture_text in
      if is_misconception
      then Some (misconceptions ++
                   [ {| Misconception.text := note_sentence;
                        Misconception.suggestion := correction;
                        Misconception.position := i |} ])
      else Some misconceptions
    else
      let contradiction_score := _check_contradiction note_sentence lecture_sentence in
      if Qgtb contradiction_score contradiction_threshold then
        let correction := _extract_correction lecture_sentence in
        Some (misconceptions ++
                [ {| Misconception.text := note_sentence;
                     Misconception.suggestion := correction;
                     Misconception.position := i |} ])
      else Some misconceptions
  else Some misconceptions.

Definition detect (notes_text : str) (slide_data : list Slide)
    : option (list Misconception.t) :=
  let note_sentences := _split_into_sentences notes_text in
  let lecture_text := Str.join (py " ") (map text slide_data) in
  let lecture_sentences := _split_into_sentences lecture_text in
  let note_embeddings := embed_batch note_sentences in
  let lecture_embeddings := embed_batch lecture_sentences in
  fold_left
    (detect_step lecture_text lecture_sentences note_embeddings lecture_embeddings)
    (enumerate note_sentences) (Some []).
End WithServices.

End MisconceptionDetector.

(** ** The coverage estimate as the specification words it *)

Module CoverageSpec.

(** The running sum of the similarities of segments [0..i] inclusive. *)
Definition running_sum (similarities : list Q) (i : nat) : Q :=
  py_sum (take (i + 1) similarities).

(** Heuristic 1 in the words of the specification: the index in
    [[0, n-1]] achieving the maximum running sum, the earliest one on
    ties. *)
Definition cumulative_best (similarities : list Q) : nat :=
  fold_left (fun best i =>
               if Qgtb (running_sum similarities i) (running_sum similarities best)
               then i else best)
            (seq 0 (length similarities)) 0.

(** Heuristic 2 in the words of the specification: the largest index whose
    similarity exceeds [0.3] ([0] when there is none). *)
Definition threshold_best (similarities : list Q) : nat :=
  fold_left (fun best e => if Qgtb (snd e) (3 # 10) then fst e else best)
            (enumerate similarities) 0.

Definition estimate (similarities : list Q) : nat :=
  match similarities with
  | [] => 0
  | _ => Nat.max (cumulative_best similarities) (threshold_best similarities)
  end.

(** What the first loop of the code computes, stated on the running sums:
    [0] when no running sum is strictly positive, and otherwise the
    earliest index achieving the maximum running sum. *)
Definition is_cumulative_best (similarities : list Q) (b : nat) : Prop :=
  let n := length similarities in
  ((∀ i, i < n → (running_sum similarities i <= 0)%Q) ∧ b = 0)
  ∨ (b < n
     ∧ (0 < running_sum similarities b)%Q
     ∧ (∀ i, i < n → (running_sum similarities i <= running_sum similarities b)%Q)
     ∧ (∀ i, i < b → (running_sum similarities i < running_sum similarities b)%Q)).

(** The largest index whose similarity exceeds [0.3], and [0] when there is
    none. *)
Definition is_threshold_best (similarities : list Q) (t : nat) : Prop :=
  ((∀ i s, similarities !! i = Some s → ¬ (3 # 10 < s)%Q) ∧ t = 0)
  ∨ ((∃ s, similarities !! t = Some s ∧ (3 # 10 < s)%Q)
     ∧ (∀ i s, similarities !! i = Some s → (3 # 10 < s)%Q → i ≤ t)).

(** The state of the first loop of the code after [k] iterations. *)
Definition cumulative_prefix (similarities : list Q) (k : nat) : Q * nat :=
  fold_left (AlignmentService.cumulative_step similarities) (seq 0 k) (0%Q, 0).

(** The invariant of the first loop after [k] iterations. *)
Definition cumulative_inv (similarities : list Q) (k : nat) (st : Q * nat) : Prop :=
  let '(m, b) := st in
  (∀ i, i < k → (running_sum similarities i <= m)%Q)
  ∧ ((m = 0%Q ∧ b = 0)
     ∨ (b < k ∧ m = running_sum similarities b
        ∧ (0 < m)%Q
        ∧ (∀ i, i < b → (running_sum similarities i < m)%Q))).

(** The state of the specification's first heuristic after [k] candidate
    indices. *)
Definition cumulative_best_prefix (similarities : list Q) (k : nat) : nat :=
  fold_left (fun best i =>
               if Qgtb (running_sum similarities i) (running_sum similarities best)
               then i else best)
            (seq 0 k) 0.

End CoverageSpec.

(** ** The invariant of the outer loop of [detect] *)

Module DetectSpec.

(** After the first [k] note sentences: every entry carries the index and
    the text of one of them, the positions increase strictly, and there are
    at most [k] entries. *)
Definition detect_inv (note_sentences : list str) (k : nat)
    (misconceptions : list Misconception.t) : Prop :=
  Forall (λ m, Misconception.position m < k
               ∧ note_sentences !! Misconception.position m = Some (Misconception.text m))
         misconceptions
  ∧ StronglySorted lt (map Misconception.position misconceptions)
  ∧ length misconceptions ≤ k.

End DetectSpec.

(** ** A small embedding service for evaluating the model

    A text is embedded as its length, and two embeddings are the closer the
    closer the lengths are. *)
Definition length_service : EmbeddingService := {|
  Emb := nat;
  encode := λ text, length text;
  similarity := λ a b,
    (inject_Z (Z.of_nat (S (Nat.min a b))) / inject_Z (Z.of_nat (S (Nat.max a b))))%Q
|}.

(** ** The sentences of the scenarios *)

Module Scenario.

Definition note_range : str := py "The risk score ranges from 1 to 5.".
Definition lecture_range : str := py "The risk score ranges from 1 to 20.".
(** A variant whose numbers all differ from the lecture's. *)
Definition note_range_disjoint : str := py "The risk score ranges from 2 to 5.".

Definition note_negated : str := py "The tool is not mandatory.".
Definition lecture_plain : str := py "The tool is mandatory.".

(** A stored slide holding one sentence. *)
Definition slide_of `{EmbeddingService} (sentence : str) : Slide :=
  {| slide_index := 0; text := sentence; embedding := embed sentence |}.

(** A client that always fails, so that every classification falls back to
    the heuristic. *)
Definition no_client : str → str → str → option str := λ _ _ _, None.

(** Concept sets of a lecture and of notes that repeat one of its concepts. *)
Definition lecture_set : gset str :=
  {[ py "risk score ranges from 1 to 20";
     py "data from 21 administrative sources including child protective services" ]}.
Definition notes_set : gset str := {[ py "risk score ranges from 1 to 20" ]}.

(** A store that knows the slide deck and holds no slide for it. *)
Definition empty_store `{EmbeddingService} : str → option (list Slide) :=
  λ _, Some [].

End Scenario.

(** ** Splitting on a terminator followed by whitespace *)

Module SplitSpec.

(** Whether [s] holds a terminator directly followed by a whitespace
    character, that is, whether [[.!?]\s+] matches somewhere in [s]. *)
Fixpoint has_match (s : str) : bool :=
  match s with
  | c :: s' =>
      match s' with
      | w :: _ => (Char.isterminator c && Char.isspace w) || has_match s'
      | [] => false
      end
  | [] => false
  end.

(** [splits text fragments]: the text is the fragments joined by
    separators; a separator is a terminator followed by a maximal non-empty
    run of whitespace; and no fragment holds such a separator. *)
Inductive splits : str → list str → Prop :=
| splits_last (f : str) :
    has_match f = false → splits f [f]
| splits_sep (f : str) (c : ascii) (ws rest : str) (fragments : list str) :
    has_match f = false →
    Char.isterminator c = true →
    ws ≠ [] →
    Forall (λ w, Char.isspace w = true) ws →
    Str.take_while Char.isspace rest = [] →
    splits rest fragments →
    splits (f ++ c :: ws ++ rest) (f :: fragments).

End SplitSpec.

(** ** The concept filter, check by check *)

Module ConceptSpec.
Import ConceptDetector.

(** A string without leading and without trailing whitespace. *)
Definition trimmed (s : str) : Prop :=
  Str.take_while Char.isspace s = []
  ∧ Str.take_while Char.isspace (reverse s) = [].

(** The checks [_filter_concepts] runs on [concept_clean], once the
    numbering prefix is removed. *)
Definition passes (concept_clean : str) : bool :=
  negb ((length concept_clean <? 6)
        && negb (search_digit concept_clean)
        && negb (search_capitalized concept_clean))
  && negb (is_noise (Str.lower concept_clean))
  && negb (bool_decide (Str.split (Str.lower concept_clean) = []))
  && negb (Qgtb (stopword_ratio (Str.split (Str.lower concept_clean))) (65 # 100)
           && (length (Str.split (Str.lower concept_clean)) <? 5))
  && search_alpha3 concept_clean.

(** A string that begins with a character of the numbering prefix: a
    digit, [.], [)] or [-]. *)
Definition numbered (s : str) : Prop := Str.take_while Char.isbullet s ≠ [].

(** The similarity gate of [find_missing_concepts] on one candidate. *)
Definition below_threshold `{EmbeddingService} (notes_list : list str) (c : str) : bool :=
  Qltb (max_similarity_to (embed_batch notes_list) (encode c)) similarity_threshold.

End ConceptSpec.

(** ** The heuristic classifier, rule by rule *)

Module MisconceptionSpec.
Import MisconceptionDetector.

(** Whether an antonym pair is matched, in one direction or the other. *)
Definition pair_matches (note_lower lecture_lower : str) (p : str * str) : bool :=
  (Str.contains (fst p) note_lower && Str.contains (snd p) lecture_lower)
  || (Str.contains (snd p) note_lower && Str.contains (fst p) lecture_lower).

(** The number of antonym pairs matched by two sentences. *)
Definition antonym_matches (note_sentence lecture_sentence : str) : nat :=
  length (List.filter (pair_matches (Str.lower note_sentence) (Str.lower lecture_sentence))
            contradiction_words).

(** Whether the numeric rule fires. *)
Definition numeric_conflict `{EmbeddingService} (note_sentence lecture_sentence : str) : bool :=
  negb (bool_decide (findall_numbers note_sentence = []))
  && negb (bool_decide (findall_numbers lecture_sentence = []))
  && bool_decide (size ((list_to_set (findall_numbers note_sentence) : gset str)
                          ∩ list_to_set (findall_numbers lecture_sentence)) = 0)
  && Qgtb (similarity (embed note_sentence) (embed lecture_sentence)) (6 # 10).

(** A numeric token: digits, then possibly a dot and further digits. *)
Definition number_token (t : str) : Prop :=
  ∃ ds fs,
    ds ≠ [] ∧ Forall (λ c, Char.isdigit c = true) ds
    ∧ Forall (λ c, Char.isdigit c = true) fs
    ∧ (t = ds ∨ t = ds ++ py "." ++ fs).

(** The invariant of the scanner behind [findall_numbers]. *)
Definition number_state_ok (st : number_state) : Prop :=
  match st with
  | Outside => True
  | InInteger cur =>
      cur ≠ [] ∧ Forall (λ c, Char.isdigit c = true) cur
  | InFraction cur =>
      ∃ ds fs, ds ≠ [] ∧ Forall (λ c, Char.isdigit c = true) ds
               ∧ Forall (λ c, Char.isdigit c = true) fs
               ∧ reverse cur = ds ++ py "." ++ fs
  end.

(** What the inner loop of [detect] finds: no lecture sentence with a
    strictly positive similarity, or the earliest one of maximum
    similarity. *)
Definition is_best_match `{EmbeddingService} (note_emb : Emb) (lecture_embeddings : list Emb)
    (r : Q * Z) : Prop :=
  let '(m, idx) := r in
  ((∀ j e, lecture_embeddings !! j = Some e → (similarity note_emb e <= 0)%Q)
   ∧ m = 0%Q ∧ idx = (-1)%Z)
  ∨ (∃ j e,
       idx = Z.of_nat j ∧ lecture_embeddings !! j = Some e
       ∧ m = similarity note_emb e ∧ (0 < m)%Q
       ∧ (∀ i e', lecture_embeddings !! i = Some e' → (similarity note_emb e' <= m)%Q)
       ∧ (∀ i e', i < j → lecture_embeddings !! i = Some e' → (similarity note_emb e' < m)%Q)).

Section WithServices.
Context `{ES : EmbeddingService}.
Variable use_llm : bool.
Variable chat_completion : str → str → str → option str.

(** The verdict of one iteration of the outer loop of [detect] on a note
    sentence: the correction when the sentence is reported. *)
Definition verdict (lecture_text : str) (lecture_sentences : list str)
    (note_sentence : str) : option str :=
  let '(max_similarity, best_lecture_idx) :=
    best_match (encode note_sentence) (embed_batch lecture_sentences) in
  if Qgtb max_similarity (5 # 10) && (0 <=? best_lecture_idx)%Z then
    lecture_sentence ← lecture_sentences !! Z.to_nat best_lecture_idx;
    if use_llm then
      let '(is_misconception, correction) :=
        _check_with_llm chat_completion note_sentence lecture_sentence lecture_text in
      if is_misconception then Some correction else None
    else
      if Qgtb (_check_contradiction note_sentence lecture_sentence) contradiction_threshold
      then Some (_extract_correction lecture_sentence)
      else None
  else None.

(** The entry [detect] appends for the note sentence at index [i]. *)
Definition report (lecture_text : str) (lecture_sentences : list str)
    (e : nat * str) : option Misconception.t :=
  correction ← verdict lecture_text lecture_sentences (snd e);
  Some {| Misconception.text := snd e;
          Misconception.suggestion := correction;
          Misconception.position := fst e |}.

End WithServices.

End MisconceptionSpec.

(** ** Contiguous parts of a string *)

Module TextSpec.

(** [infix_of s t]: [s] occurs in [t] as a contiguous part. *)
Definition infix_of (s t : str) : Prop := ∃ pre suf, t = pre ++ s ++ suf.

(** What the scanner behind [findall_numbers] still holds of the text. *)
Definition pending (st : MisconceptionDetector.number_state) : str :=
  match st with
  | MisconceptionDetector.Outside => []
  | MisconceptionDetector.InInteger cur | MisconceptionDetector.InFraction cur => reverse cur
  end.

End TextSpec.

(** ** Ranking concepts ([select_priority_concepts] of
       [services/concept_detector.py]) *)

Module ConceptRanking.

Definition keywords : list str :=
  map py ["predict"; "risk"; "score"; "uses"; "based"; "model"]%string.

(** The local function [score]. *)
Definition score (concept : str) : nat :=
  let s := 0 in
  let s := if ConceptDetector.search_digit concept then s + 3 else s in
  let s := if 4 <=? length (Str.split concept) then s + 2 else s in
  let s := if existsb (λ word, Str.contains word (Str.lower concept)) keywords
           then s + 1 else s in
  s.

(** The sort key [(score(c), len(c))]. *)
Definition key (c : str) : nat * nat := (score c, length c).

(** [a < b] on keys: tuples compare lexicographically. *)
Definition key_ltb (a b : nat * nat) : bool :=
  (fst a <? fst b) || ((fst a =? fst b) && (snd a <? snd b)).

(** [sorted(l, key=..., reverse=True)]: the stable sort into descending key
    order, written as an insertion sort.  A stable sort has one result
    only, whichever algorithm computes it. *)
Fixpoint insert_desc (x : str) (l : list str) : list str :=
  match l with
  | [] => [x]
  | y :: l' => if key_ltb (key x) (key y) then y :: insert_desc x l' else x :: l
  end.
Definition sorted_desc (l : list str) : list str := foldr insert_desc [] l.

(** [l[:limit]] for a Python integer [limit]: a negative limit counts from
    the end. *)
Definition slice_to (limit : Z) (l : list str) : list str :=
  if (0 <=? limit)%Z then take (Z.to_nat limit) l
  else take (length l - Z.to_nat (- limit)) l.

Definition default_limit : Z := 5.

Section WithOrder.
(** [list(s)] for a set [s]: the order in which Python iterates it. *)
Variable to_list : gset str → list str.

Definition select_priority_concepts (concepts : gset str) (limit : Z) : list str :=
  if decide (concepts = ∅) then [] else
  let ranked := sorted_desc (to_list concepts) in
  slice_to limit ranked.
End WithOrder.

(** [b] does not rank above [a]. *)
Definition ranks_before (a b : str) : Prop := key_ltb (key a) (key b) = false.

End ConceptRanking.

(** ** Extraction over slides ([extract_concepts] of
       [services/concept_detector.py]) *)

Module ConceptExtraction.

Definition newline : ascii := ascii_of_nat 10.

Definition chunk_size : nat := 2.

(** [range(0, n, chunk_size)]. *)
Definition chunk_starts (n : nat) : list nat :=
  map (λ k, k * chunk_size) (seq 0 ((n + (chunk_size - 1)) / chunk_size)).

Section WithServices.
Context `{ES : EmbeddingService}.
(** The configuration flag and the two extraction strategies,
    [_extract_with_llm] and [_extract_from_text_fallback]. *)
Variable use_llm : bool.
Variable _extract_with_llm : str → gset str.
Variable _extract_from_text_fallback : str → gset str.

(** [slide_data[i : i + chunk_size]]. *)
Definition chunk_at (slide_data : list Slide) (i : nat) : list Slide :=
  take chunk_size (drop i slide_data).

(** ["\n\n".join(slide["text"] for slide in chunk if slide.get("text"))]. *)
Definition chunk_text (chunk : list Slide) : str :=
  Str.join [newline; newline]
    (map text (filter (λ slide : Slide, text slide ≠ []) chunk)).

(** The body of the loop: the state is [all_concepts]. *)
Definition extract_step (slide_data : list Slide) (all_concepts : gset str) (i : nat)
    : gset str :=
  let chunk := chunk_at slide_data i in
  let chunk_text := chunk_text chunk in
  if bool_decide (Str.strip chunk_text = []) then all_concepts else
  let concepts :=
    if use_llm then _extract_with_llm chunk_text
    else _extract_from_text_fallback chunk_text in
  all_concepts ∪ concepts.

Definition extract_concepts (slide_data : list Slide) : gset str :=
  let all_concepts :=
    fold_left (extract_step slide_data) (chunk_starts (length slide_data)) ∅ in
  ConceptDetector._filter_concepts all_concepts.

End WithServices.

End ConceptExtraction.

(** ** The similarity matrix ([compute_similarity_matrix] of
       [services/alignment_service.py]) *)

Module SimilarityMatrix.

(** A two-dimensional array, row by row. *)
Abbreviation matrix := (list (list Q)).

(** [np.zeros((rows, cols))]. *)
Definition zeros (rows cols : nat) : matrix := replicate rows (replicate cols 0%Q).

(** [m[i, j] = v]; [None] stands for the [IndexError] of an index out of
    range. *)
Definition set_entry (m : matrix) (i j : nat) (v : Q) : option matrix :=
  row ← m !! i;
  if decide (j < length row) then Some (<[i := <[j := v]> row]> m) else None.

Section WithServices.
Context `{ES : EmbeddingService}.
Variable get_slides : str → option (list Slide).

(** The inner loop: the state is the matrix. *)
Definition fill_row (i : nat) (slide_embedding : Emb) (note_embeddings : list Emb)
    (st : option matrix) : option matrix :=
  fold_left (λ st e,
               similarity_matrix ← st;
               let '(j, note_embedding) := e in
               let similarity := similarity slide_embedding note_embedding in
               set_entry similarity_matrix i j similarity)
            (enumerate note_embeddings) st.

Definition compute_similarity_matrix (slide_id : str) (notes_chunks : list str)
    : option matrix :=
  match get_slides slide_id with
  | None | Some [] => Some []
  | Some slide_data =>
      let note_embeddings := embed_batch notes_chunks in
      let similarity_matrix := zeros (length slide_data) (length notes_chunks) in
      fold_left (λ st e,
                   let '(i, slide) := e in
                   let slide_embedding := embedding slide in
                   fill_row i slide_embedding note_embeddings st)
                (enumerate slide_data) (Some similarity_matrix)
  end.

(** The matrix the docstring describes: entry [(i, j)] is the similarity of
    slide [i] and note chunk [j]. *)
Definition similarity_table (slide_data : list Slide) (notes_chunks : list str) : matrix :=
  map (λ slide, map (λ chunk, similarity (embedding slide) (encode chunk)) notes_chunks)
      slide_data.

End WithServices.

End SimilarityMatrix.

(** ** The request handlers ([main.py]) *)

Module Main.

(** What the handlers raise: an [HTTPException], or an error of the
    detector. *)
Inductive exn :=
| HTTPException (status_code : nat) (detail : str)
| IndexError.

(** The outcome of a handler: the JSON it returns, or the [HTTPException] it
    leaves with. *)
Inductive response (A : Type) :=
| Ok (payload : A)
| HttpError (status_code : nat) (detail : str).
Arguments Ok {A} payload.
Arguments HttpError {A} status_code detail.

Section WithServices.
Context `{ES : EmbeddingService}.
Variable get_slides : str → option (list Slide).
Variable use_llm : bool.
Variable chat_completion : str → str → str → option str.
(** A quiz question, and [quiz_generator.generate_single], which catches
    every error itself. *)
Variable Question : Type.
Variable generate_single : list Slide → option (list Question) → Question.
(** [str(e)]. *)
Variable str_of_exn : exn → str.

Record ScanNotesRequest := {
  slide_id : str;
  notes_text : str
}.

Record RefreshQuestionRequest := {
  r_slide_id : str;
  r_notes_text : str;
  previous_questions : option (list Question)
}.

Record ScanNotesResult := {
  question : Question;
  misconceptions : list Misconception.t;
  covered_slides : nat;
  total_slides : nat
}.

Record RefreshQuestionResult := {
  r_question : Question;
  r_covered_slides : nat;
  r_total_slides : nat
}.

(** [except Exception as e: raise HTTPException(status_code=500, detail=str(e))]
    around a body: every exception of the body, an [HTTPException]
    included, leaves as status 500. *)
Definition catch_all {A} (body : exn + A) : response A :=
  match body with
  | inl e => HttpError 500 (str_of_exn e)
  | inr payload => Ok payload
  end.

(** [slide_data[:min(covered_slides + 1, len(slide_data))]]. *)
Definition covered_prefix (slide_data : list Slide) (covered : nat) : list Slide :=
  take (Nat.min (covered + 1) (length slide_data)) slide_data.

Definition scan_notes_body (request : ScanNotesRequest) : exn + ScanNotesResult :=
  match get_slides (slide_id request) with
  | None | Some [] => inl (HTTPException 404 (py "Slides not found"))
  | Some slide_data =>
      let notes_embedding := embed (notes_text request) in
      let covered :=
        AlignmentService.find_covered_slides get_slides (slide_id request) notes_embedding in
      let covered_slide_data := covered_prefix slide_data covered in
      match MisconceptionDetector.detect use_llm chat_completion
              (notes_text request) covered_slide_data with
      | None => inl IndexError
      | Some found =>
          let q := generate_single covered_slide_data None in
          inr {| question := q;
                 misconceptions := found;
                 covered_slides := length covered_slide_data;
                 total_slides := length slide_data |}
      end
  end.

Definition scan_notes (request : ScanNotesRequest) : response ScanNotesResult :=
  catch_all (scan_notes_body request).

Definition refresh_question_body (request : RefreshQuestionRequest)
    : exn + RefreshQuestionResult :=
  match get_slides (r_slide_id request) with
  | None | Some [] => inl (HTTPException 404 (py "Slides not found"))
  | Some slide_data =>
      let notes_embedding := embed (r_notes_text request) in
      let covered :=
        AlignmentService.find_covered_slides get_slides (r_slide_id request)
          notes_embedding in
      let covered_slide_data := covered_prefix slide_data covered in
      let previous :=
        match previous_questions request with
        | Some (q :: qs) => q :: qs
        | _ => []
        end in
      let q := generate_single covered_slide_data (Some previous) in
      inr {| r_question := q;
             r_covered_slides := length covered_slide_data;
             r_total_slides := length slide_data |}
  end.

Definition refresh_question (request : RefreshQuestionRequest)
    : response RefreshQuestionResult :=
  catch_all (refresh_question_body request).

End WithServices.

End Main.

(** ** Regular expressions with groups, as [re] matches them

    The expressions of [_extract_from_text_fallback] need backtracking, so
    they are written as syntax and matched by a backtracking matcher:
    alternatives are tried in order, a repetition is greedy and gives back
    one iteration at a time, and the first way to match that is found is the
    match.  Every repeated part of the expressions of the source consumes at
    least one character. *)

Module Regex.

Inductive regex :=
| Eps
| Chr (p : ascii → bool)
| Seq (r1 r2 : regex)
| Alt (r1 r2 : regex)
| Rep (r : regex) (lo : nat) (hi : option nat)
| Group (i : nat) (r : regex)
| WordB.

(** The position of the matcher: the character before it, the text after it,
    and the groups captured so far (the latest first). *)
Record state := {
  prev : option ascii;
  rest : str;
  caps : list (nat * str)
}.

(** [\b]: one side of the position is a word character and the other is
    not. *)
Definition is_word (c : option ascii) : bool :=
  match c with
  | Some c => Char.isword c
  | None => false
  end.
Definition at_boundary (st : state) : bool :=
  xorb (is_word (prev st)) (is_word (head (rest st))).

Definition set_cap (i : nat) (captured : str) (st : state) : state :=
  {| prev := prev st; rest := rest st; caps := (i, captured) :: caps st |}.

(** What was read between two positions of one text. *)
Definition consumed (from to : state) : str :=
  take (length (rest from) - length (rest to)) (rest from).

Definition within (count : nat) (hi : option nat) : bool :=
  match hi with
  | Some h => count <? h
  | None => true
  end.

(** A greedy repetition of [m]: one more iteration first, the rest of the
    expression when that fails.  [fuel] bounds the number of iterations by
    the length of the text. *)
Fixpoint rep (m : (state → option state) → state → option state)
    (lo : nat) (hi : option nat) (count fuel : nat)
    (k : state → option state) (st : state) : option state :=
  match fuel with
  | 0 => None
  | S fuel' =>
      let more :=
        if within count hi
        then m (λ st', if length (rest st') <? length (rest st)
                       then rep m lo hi (S count) fuel' k st'
                       else None) st
        else None in
      match more with
      | Some res => Some res
      | None => if lo <=? count then k st else None
      end
  end.

(** [exec r k st]: match [r] at [st] and go on with [k]; [None] when no way
    of matching [r] lets [k] succeed. *)
Fixpoint exec (r : regex) (k : state → option state) (st : state) : option state :=
  match r with
  | Eps => k st
  | Chr p =>
      match rest st with
      | c :: s' =>
          if p c then k {| prev := Some c; rest := s'; caps := caps st |} else None
      | [] => None
      end
  | Seq r1 r2 => exec r1 (exec r2 k) st
  | Alt r1 r2 =>
      match exec r1 k st with
      | Some res => Some res
      | None => exec r2 k st
      end
  | Rep r lo hi => rep (exec r) lo hi 0 (S (length (rest st))) k st
  | Group i r => exec r (λ st', k (set_cap i (consumed st st') st')) st
  | WordB => if at_boundary st then k st else None
  end.

(** The match of [r] at a position, if there is one. *)
Definition match_at (r : regex) (pv : option ascii) (s : str) : option state :=
  exec r Some {| prev := pv; rest := s; caps := [] |}.

(** [m.group(i)]; the empty string stands for a group that took no part. *)
Definition group (i : nat) (st : state) : str :=
  match List.find (λ c, fst c =? i) (caps st) with
  | Some c => snd c
  | None => []
  end.

(** The matches [re.finditer(r, s)] yields: leftmost first, each search
    starting where the last match ended. *)
Fixpoint finditer_go (r : regex) (fuel : nat) (pv : option ascii) (s : str)
    : list (str * state) :=
  match fuel with
  | 0 => []
  | S fuel' =>
      match match_at r pv s with
      | Some res =>
          let matched := take (length s - length (rest res)) s in
          match matched, s with
          | [], c :: s' => (matched, res) :: finditer_go r fuel' (Some c) s'
          | [], [] => [(matched, res)]
          | _, _ => (matched, res) :: finditer_go r fuel' (prev res) (rest res)
          end
      | None =>
          match s with
          | c :: s' => finditer_go r fuel' (Some c) s'
          | [] => []
          end
      end
  end.
Definition finditer (r : regex) (s : str) : list (str * state) :=
  finditer_go r (S (length s)) None s.

(** Shorthands: sequences, literals, letters without case. *)
Definition seqs (rs : list regex) : regex := foldr Seq Eps rs.
Fixpoint alts (rs : list regex) : regex :=
  match rs with
  | [] => Chr (λ _, false)
  | [r] => r
  | r :: rs' => Alt r (alts rs')
  end.
Definition is_char (c : ascii) : ascii → bool := λ x, bool_decide (x = c).
Definition is_char_nocase (c : ascii) : ascii → bool :=
  λ x, bool_decide (Char.lower x = Char.lower c).
Definition lit (s : String.string) : regex := seqs (map (λ c, Chr (is_char c)) (py s)).
Definition lit_nocase (s : String.string) : regex :=
  seqs (map (λ c, Chr (is_char_nocase c)) (py s)).
Definition opt (r : regex) : regex := Rep r 0 (Some 1).
Definition star (r : regex) : regex := Rep r 0 None.
Definition plus (r : regex) : regex := Rep r 1 None.

End Regex.

(** ** The deterministic extraction ([_extract_from_text_fallback] of
       [services/concept_detector.py]) *)

Module FallbackExtraction.
Import Regex.

Definition space : regex := Chr Char.isspace.
Definition digit : regex := Chr Char.isdigit.
Definition word : regex := Chr Char.isword.
(** [[^,\.]]. *)
Definition not_comma_period : regex :=
  Chr (λ c, negb (bool_decide (c = "," ∨ c = "."))%char).
(** [[-–]]: the hyphen, or the en dash by its code point. *)
Definition dash : regex :=
  Chr (λ c, (Char.code c =? 45)%N || (Char.code c =? 8211)%N).

(** The expression of the numbered facts, with [re.IGNORECASE]: one group
    around a word boundary, [[\w\s]{0,40}], one of [ranges?], [range],
    [from], [between], [within], then [\s+\d+], an optional second number
    after a dash, and any number of further words [(?:\s+\w+)]. *)
Definition number_fact : regex :=
  Group 1 (seqs
    [ WordB;
      Rep (Chr (λ c, Char.isword c || Char.isspace c)) 0 (Some 40);
      alts [ Seq (lit_nocase "range") (opt (Chr (is_char_nocase "s")));
             lit_nocase "range"; lit_nocase "from"; lit_nocase "between";
             lit_nocase "within" ];
      plus space; plus digit;
      opt (seqs [star space; dash; star space; plus digit]);
      star (Seq (plus space) (plus word)) ]).

(** [data\s+from\s+(\d+\s+\w+(?:\s+\w+){0,6})] with [re.IGNORECASE]. *)
Definition data_source : regex :=
  seqs [ lit_nocase "data"; plus space; lit_nocase "from"; plus space;
         Group 1 (seqs [ plus digit; plus space; plus word;
                         Rep (Seq (plus space) (plus word)) 0 (Some 6) ]) ].

(** [predicts?\s+([^,\.]+(?:\([^)]+\))?)] with [re.IGNORECASE]. *)
Definition prediction : regex :=
  seqs [ lit_nocase "predict"; opt (Chr (is_char_nocase "s")); plus space;
         Group 1 (seqs
           [ plus not_comma_period;
             opt (seqs [ lit "("; plus (Chr (λ c, negb (bool_decide (c = ")"%char))));
                         lit ")" ]) ]) ].

(** [\b([A-Z][A-Z]+)\s+stands?\s+for\s+([^,\.]+)]. *)
Definition definition : regex :=
  seqs [ WordB;
         Group 1 (Seq (Chr Char.isupper_az) (plus (Chr Char.isupper_az)));
         plus space; lit "stand"; opt (lit "s"); plus space; lit "for"; plus space;
         Group 2 (plus not_comma_period) ].

(** [\b(?:uses?|includes?|provides?|offers?|relies\s+on)\s+([^,\.]+)] with
    [re.IGNORECASE]. *)
Definition capability : regex :=
  seqs [ WordB;
         alts [ Seq (lit_nocase "use") (opt (Chr (is_char_nocase "s")));
                Seq (lit_nocase "include") (opt (Chr (is_char_nocase "s")));
                Seq (lit_nocase "provide") (opt (Chr (is_char_nocase "s")));
                Seq (lit_nocase "offer") (opt (Chr (is_char_nocase "s")));
                seqs [lit_nocase "relies"; plus space; lit_nocase "on"] ];
         plus space;
         Group 1 (plus not_comma_period) ].

(** [re.findall] for an expression with one group, and with two. *)
Definition findall1 (r : regex) (s : str) : list str :=
  map (λ m, group 1 (snd m)) (finditer r s).
Definition findall2 (r : regex) (s : str) : list (str * str) :=
  map (λ m, (group 1 (snd m), group 2 (snd m))) (finditer r s).

(** [cap.lower().startswith(("a ", "an ", "the "))]. *)
Definition starts_with_article (cap : str) : bool :=
  existsb (λ p, Str.startswith p (Str.lower cap)) [py "a "; py "an "; py "the "].

(** The capability facts kept of a sentence. *)
Definition kept_capabilities (sentence : str) : list str :=
  List.filter (λ cap, (5 <? length cap) && negb (starts_with_article cap))
    (map Str.strip (take 3 (findall1 capability sentence))).

(** The body of the loop over the sentences, for a sentence that is long
    enough: the concepts it adds. *)
Definition sentence_concepts (sentence : str) : gset str :=
  let number_facts := findall1 number_fact sentence in
  let sources := findall1 data_source sentence in
  let predictions := findall1 prediction sentence in
  let definitions := findall2 definition sentence in
  list_to_set (map Str.strip number_facts)
  ∪ list_to_set (map (λ src, Str.strip (py "data from " ++ src)) sources)
  ∪ list_to_set (map Str.strip predictions)
  ∪ list_to_set (map (λ d, fst d ++ py " stands for " ++ Str.strip (snd d)) definitions)
  ∪ list_to_set (kept_capabilities sentence).

(** The loop: the state is [concepts]. *)
Definition fallback_step (concepts : gset str) (sentence : str) : gset str :=
  let sentence := Str.strip sentence in
  if length sentence <? 12 then concepts
  else concepts ∪ sentence_concepts sentence.

Definition _extract_from_text_fallback (text : str) : gset str :=
  let sentences := MisconceptionDetector.re_split text in
  fold_left fallback_step sentences ∅.

End FallbackExtraction.

(** ** What a match of an expression leaves behind *)

Module RegexSpec.
Import Regex.

(** The position after the longest run of characters of [p]. *)
Fixpoint skip (p : ascii → bool) (pv : option ascii) (s : str) : option ascii * str :=
  match s with
  | c :: s' => if p c then skip p (Some c) s' else (pv, s)
  | [] => (pv, s)
  end.
Definition after_run (p : ascii → bool) (st : state) : state :=
  {| prev := fst (skip p (prev st) (rest st));
     rest := snd (skip p (prev st) (rest st));
     caps := caps st |}.

(** [extends st st']: [st'] is a later position of the text of [st], and
    the groups captured on the way are parts of that text. *)
Definition extends (st st' : state) : Prop :=
  (∃ pre, rest st = pre ++ rest st')
  ∧ ∃ new, caps st' = new ++ caps st
           ∧ Forall (λ c, TextSpec.infix_of (snd c) (rest st)) new.

(** A matcher in continuation style is sound when every result comes from
    the continuation at a later position. *)
Definition sound (m : (state → option state) → state → option state) : Prop :=
  ∀ k st res, m k st = Some res → ∃ st', extends st st' ∧ k st' = Some res.

(** [body] reads exactly the longest run of characters of [p], whatever
    comes after it in the expression, provided that never fails. *)
Definition takes_run (p : ascii → bool) (body : regex) : Prop :=
  ∀ k st res, (∀ st', k st' ≠ None) → exec body k st = Some res →
  Str.take_while p (rest st) ≠ [] ∧ k (after_run p st) = Some res.

(** A run of characters of [p] that stops at the end of the text or at a
    character outside [p]: [run] is not empty and [s = pre ++ run ++ suf]. *)
Definition maximal_run (p : ascii → bool) (run s : str) : Prop :=
  run ≠ [] ∧ Forall (λ c, p c = true) run
  ∧ ∃ pre suf, s = pre ++ run ++ suf
               ∧ match suf with c :: _ => p c = false | [] => True end.

End RegexSpec.

(** ** What the deterministic extraction returns *)

Module FallbackSpec.
Import Regex FallbackExtraction.

(** The characters of [[^,\.]]. *)
Definition plain (c : ascii) : bool := negb (bool_decide (c = "," ∨ c = "."))%char.

(** The three shapes of a concept: a part of the text without whitespace at
    its ends, a source after [data from], and a definition around
    [stands for]. *)
Definition provenance (text c : str) : Prop :=
  (TextSpec.infix_of c text ∧ ConceptSpec.trimmed c)
  ∨ (∃ src, TextSpec.infix_of src text ∧ c = Str.strip (py "data from " ++ src))
  ∨ (∃ abbr d, TextSpec.infix_of abbr text ∧ TextSpec.infix_of d text
               ∧ c = abbr ++ py " stands for " ++ d).

End FallbackSpec.

(** * Checks on concrete inputs *)

Example fallback_example :
  FallbackExtraction._extract_from_text_fallback
    (py "The AFST predicts the risk of placement, and it uses data from 21 sources.")
  = {[ py "and it uses data from 21 sources"; py "data from 21 sources";
       py "the risk of placement" ]}.
Proof. apply (bool_decide_unpack _). vm_compute. reflexivity. Qed.

(** A prediction that is only whitespace gives the empty concept. *)
Example fallback_empty_concept :
  FallbackExtraction._extract_from_text_fallback (py "The model predicts  , then stops")
  = {[ [] ]}.
Proof. apply (bool_decide_unpack _). vm_compute. reflexivity. Qed.

Example isspace_codes :
  filter (λ n, Char.isspace (ascii_of_nat n) = true) (seq 0 256)
  = [9; 10; 11; 12; 13; 28; 29; 30; 31; 32; 133; 160].
Proof. vm_compute. reflexivity. Qed.

Example re_split_example :
  MisconceptionDetector.re_split (py "a.. b!  c. ") = [py "a."; py "b"; py "c"; py ""].
Proof. vm_compute. reflexivity. Qed.

Example re_split_no_space :
  MisconceptionDetector.re_split (py "One. Two!  Three? Four.Five")
  = [py "One"; py "Two"; py "Three"; py "Four.Five"].
Proof. vm_compute. reflexivity. Qed.

Example split_into_sentences_example :
  MisconceptionDetector._split_into_sentences
    (py "Short one. This one is long enough! It is bad. ok")
  = [py "This one is long enough"].
Proof. vm_compute. reflexivity. Qed.

Example findall_numbers_example :
  MisconceptionDetector.findall_numbers (py "version 3.14.15, 7.x")
  = [py "3.14"; py "15"; py "7."].
Proof. vm_compute. reflexivity. Qed.

Example clean_concept_numbered_noise :
  ConceptDetector.clean_concept (py "  1. The slide shows") = None.
Proof. vm_compute. reflexivity. Qed.

Example clean_concept_stopwords :
  ConceptDetector.clean_concept (py "the system is") = None.
Proof. vm_compute. reflexivity. Qed.

Example clean_concept_short :
  ConceptDetector.clean_concept (py "Bob") = Some (py "Bob")
  ∧ ConceptDetector.clean_concept (py "bob") = None.
Proof. split; vm_compute; reflexivity. Qed.

Example clean_concept_kept :
  ConceptDetector.clean_concept (py "AFST stands for Allegheny Family Screening Tool")
  = Some (py "AFST stands for Allegheny Family Screening Tool").
Proof. vm_compute. reflexivity. Qed.

(** The scenario of the specification for the coverage estimate: the
    threshold heuristic dominates. *)
Example covered_index_scenario :
  AlignmentService.covered_index [1 # 10; 2 # 10; 6 # 10]%Q = 2.
Proof. vm_compute. reflexivity. Qed.

Example covered_index_prefix_sum :
  AlignmentService.covered_index [2 # 10; 1 # 10; (-2) # 10; 1 # 10]%Q = 1.
Proof. vm_compute. reflexivity. Qed.

Example find_missing_concepts_example :
  ConceptDetector.find_missing_concepts (ES := length_service) elements
    Scenario.lecture_set Scenario.notes_set
  = Some [py "data from 21 administrative sources including child protective services"].
Proof. vm_compute. reflexivity. Qed.

(** * Scores and loops *)

Lemma Qgtb_true (a b : Q) : Qgtb a b = true ↔ (b < a)%Q.
Proof.
  unfold Qgtb. rewrite negb_true_iff, <- not_true_iff_false, Qle_bool_iff.
  split; [apply Qnot_le_lt | apply Qlt_not_le].
Qed.

Lemma Qgtb_false (a b : Q) : Qgtb a b = false ↔ (a <= b)%Q.
Proof. unfold Qgtb. rewrite negb_false_iff. apply Qle_bool_iff. Qed.

Lemma Qltb_true (a b : Q) : Qltb a b = true ↔ (a < b)%Q.
Proof. apply Qgtb_true. Qed.

Lemma enumerate_lookup {A} (l : list A) (i : nat) (x : A) :
  l !! i = Some x → enumerate l !! i = Some (i, x).
Proof.
  intros Hx. unfold enumerate. apply lookup_zip_with_Some.
  exists i, x. split_and!; [done | | done].
  apply lookup_seq. split; [done | by eapply lookup_lt_Some].
Qed.

Lemma enumerate_length {A} (l : list A) : length (enumerate l) = length l.
Proof. unfold enumerate. rewrite length_zip, length_seq. lia. Qed.

Lemma enumerate_snoc {A} (l : list A) (x : A) :
  enumerate (l ++ [x]) = enumerate l ++ [(length l, x)].
Proof.
  unfold enumerate. rewrite length_app. simpl.
  rewrite Nat.add_1_r, seq_S. simpl.
  rewrite zip_with_app by (by rewrite length_seq). done.
Qed.

(** * Coverage *)

Section Coverage.
Import AlignmentService CoverageSpec.

Implicit Types similarities : list Q.

Lemma cumulative_prefix_S similarities k :
  cumulative_prefix similarities (S k)
  = cumulative_step similarities (cumulative_prefix similarities k) k.
Proof. unfold cumulative_prefix. by rewrite seq_S, fold_left_app. Qed.

Lemma cumulative_prefix_inv similarities k :
  cumulative_inv similarities k (cumulative_prefix similarities k).
Proof.
  induction k as [|k IH].
  - simpl. split; [lia | by left].
  - rewrite cumulative_prefix_S.
    destruct (cumulative_prefix similarities k) as [m b].
    destruct IH as [Hle Hcase]. unfold cumulative_step.
    fold (running_sum similarities k).
    destruct (Qgtb (running_sum similarities k) m) eqn:Hgt; simpl.
    + apply Qgtb_true in Hgt. split.
      * intros i Hi. destruct (decide (i = k)) as [->|]; [apply Qle_refl|].
        apply Qlt_le_weak, Qle_lt_trans with m; [apply Hle; lia | done].
      * right. split_and!; [lia | done | |].
        -- destruct Hcase as [[-> _]|(_ & _ & Hpos & _)]; [done|].
           by apply Qlt_trans with m.
        -- intros i Hi. apply Qle_lt_trans with m; [by apply Hle | done].
    + apply Qgtb_false in Hgt. split.
      * intros i Hi. destruct (decide (i = k)) as [->|]; [done | apply Hle; lia].
      * destruct Hcase as [?|(? & ? & ? & ?)]; [by left | right; split_and!; [lia|done..]].
Qed.

Lemma cumulative_loop_best similarities :
  is_cumulative_best similarities (snd (cumulative_loop similarities)).
Proof.
  pose proof (cumulative_prefix_inv similarities (length similarities)) as Hinv.
  unfold cumulative_loop. fold (cumulative_prefix similarities (length similarities)).
  destruct (cumulative_prefix similarities (length similarities)) as [m b].
  destruct Hinv as [Hle Hcase]. simpl.
  destruct Hcase as [[-> ->]|(Hb & -> & Hpos & Hlt)]; [left | right]; done.
Qed.

Lemma threshold_fold_max (l : list (nat * Q)) (best : nat) :
  fold_left threshold_step l best = Nat.max best (fold_left threshold_step l 0).
Proof.
  revert best. induction l as [|[i sim] l IH]; intros best; simpl.
  - lia.
  - rewrite IH. rewrite (IH (if Qgtb sim similarity_threshold then i else 0)).
    destruct (Qgtb sim similarity_threshold); lia.
Qed.

Lemma threshold_loop_max similarities best :
  threshold_loop similarities best = Nat.max best (threshold_loop similarities 0).
Proof. apply threshold_fold_max. Qed.

Lemma threshold_loop_snoc similarities sim best :
  threshold_loop (similarities ++ [sim]) best
  = threshold_step (threshold_loop similarities best) (length similarities, sim).
Proof. unfold threshold_loop. by rewrite enumerate_snoc, fold_left_app. Qed.

Lemma threshold_loop_best similarities :
  is_threshold_best similarities (threshold_loop similarities 0).
Proof.
  induction similarities as [|sim similarities IH] using rev_ind.
  - left. split; [intros i s Hi; by rewrite lookup_nil in Hi | done].
  - rewrite threshold_loop_snoc. unfold threshold_step.
    destruct (Qgtb sim similarity_threshold) eqn:Hgt.
    + apply Qgtb_true in Hgt. right. split.
      * exists sim. split; [|done].
        assert (threshold_loop similarities 0 ≤ length similarities) as Hle.
        { destruct IH as [[_ ->]|[(s & Hs & _) _]]; [lia|].
          apply lookup_lt_Some in Hs. lia. }
        rewrite Nat.max_r by done.
        by rewrite lookup_app_r, Nat.sub_diag.
      * intros i s Hi _. apply lookup_lt_Some in Hi.
        rewrite length_app in Hi. simpl in Hi. lia.
    + apply Qgtb_false in Hgt.
      assert (∀ i s, (similarities ++ [sim]) !! i = Some s → (3 # 10 < s)%Q →
                     similarities !! i = Some s) as Hold.
      { intros i s Hi Hs. apply lookup_app_Some in Hi as [Hi|[_ Hi]]; [done|].
        apply list_lookup_singleton_Some in Hi as [_ <-].
        by apply Qlt_not_le in Hs. }
      destruct IH as [[Hnone ->]|[(s & Hs & Hgts) Hmax]].
      * left. split; [|done]. intros i s Hi Hs. eapply Hnone; eauto.
      * right. split.
        -- exists s. split; [|done]. by apply lookup_app_l_Some.
        -- intros i s' Hi Hs'. eapply Hmax; eauto.
Qed.

Lemma covered_index_max similarities :
  covered_index similarities
  = Nat.max (snd (cumulative_loop similarities)) (threshold_loop similarities 0).
Proof.
  unfold covered_index. destruct (cumulative_loop similarities) as [m b].
  apply threshold_loop_max.
Qed.

End Coverage.

Section CoverageClaims.
Import AlignmentService CoverageSpec.

Implicit Types similarities : list Q.

Lemma is_cumulative_best_unique similarities b b' :
  is_cumulative_best similarities b → is_cumulative_best similarities b' → b = b'.
Proof.
  intros [[Hnone ->]|(Hb & Hpos & Hmax & Hfirst)]
         [[Hnone' ->]|(Hb' & Hpos' & Hmax' & Hfirst')]; [done | | |].
  - exfalso. eapply Qlt_not_le; [exact Hpos' | by apply Hnone].
  - exfalso. eapply Qlt_not_le; [exact Hpos | by apply Hnone'].
  - destruct (Nat.lt_trichotomy b b') as [Hlt|[->|Hlt]]; [|done|].
    + exfalso. eapply Qlt_not_le; [by apply Hfirst' | by apply Hmax].
    + exfalso. eapply Qlt_not_le; [by apply Hfirst | by apply Hmax'].
Qed.

Lemma is_threshold_best_unique similarities t t' :
  is_threshold_best similarities t → is_threshold_best similarities t' → t = t'.
Proof.
  intros [[Hnone ->]|[(s & Hs & Hgt) Hmax]]
         [[Hnone' ->]|[(s' & Hs' & Hgt') Hmax']]; [done | | |].
  - exfalso. by eapply Hnone.
  - exfalso. by eapply Hnone'.
  - apply Nat.le_antisymm; [by eapply Hmax' | by eapply Hmax].
Qed.

Lemma covered_index_range similarities :
  match similarities with
  | [] => covered_index similarities = 0
  | _ => covered_index similarities < length similarities
  end.
Proof.
  destruct similarities as [|sim0 similarities]; [done|].
  set (l := sim0 :: similarities).
  rewrite covered_index_max.
  assert (0 < length l) as Hpos by (simpl; lia).
  apply Nat.max_lub_lt.
  - destruct (cumulative_loop_best l) as [[_ ->]|[? _]]; done.
  - destruct (threshold_loop_best l) as [[_ ->]|[(s & Hs & _) _]]; [done|].
    by apply lookup_lt_Some in Hs.
Qed.

Lemma cumulative_best_prefix_S similarities k :
  cumulative_best_prefix similarities (S k)
  = (if Qgtb (running_sum similarities k)
             (running_sum similarities (cumulative_best_prefix similarities k))
     then k else cumulative_best_prefix similarities k).
Proof. unfold cumulative_best_prefix. by rewrite seq_S, fold_left_app. Qed.

(** The specification's first heuristic is the earliest index achieving the
    maximum running sum. *)
Lemma cumulative_best_prefix_argmax similarities k :
  let best := cumulative_best_prefix similarities k in
  (∀ i, i < k → (running_sum similarities i <= running_sum similarities best)%Q)
  ∧ (∀ i, i < best → (running_sum similarities i < running_sum similarities best)%Q)
  ∧ (best < k ∨ best = 0).
Proof.
  induction k as [|k (Hmax & Hfirst & Hrange)]; simpl.
  - change (cumulative_best_prefix similarities 0) with 0.
    split_and!; [lia | lia | by right].
  - rewrite cumulative_best_prefix_S.
    set (best := cumulative_best_prefix similarities k) in *.
    destruct (Qgtb (running_sum similarities k) (running_sum similarities best)) eqn:Hgt.
    + apply Qgtb_true in Hgt. split_and!; [| |left; lia].
      * intros i Hi. destruct (decide (i = k)) as [->|]; [apply Qle_refl|].
        apply Qlt_le_weak, Qle_lt_trans with (running_sum similarities best);
          [apply Hmax; lia | done].
      * intros i Hi. by apply Qle_lt_trans with (running_sum similarities best);
          [apply Hmax|].
    + apply Qgtb_false in Hgt. split_and!; [|done|destruct Hrange; [left; lia|by right]].
      intros i Hi. destruct (decide (i = k)) as [->|]; [done | apply Hmax; lia].
Qed.

(** When some running sum is strictly positive, the first loop of the code
    and the specification's first heuristic pick the same index. *)
Lemma cumulative_loop_agrees similarities i :
  i < length similarities → (0 < running_sum similarities i)%Q →
  snd (cumulative_loop similarities) = cumulative_best similarities.
Proof.
  intros Hi Hpos.
  apply (is_cumulative_best_unique similarities); [apply cumulative_loop_best|].
  destruct (cumulative_best_prefix_argmax similarities (length similarities))
    as (Hmax & Hfirst & Hrange).
  change (cumulative_best_prefix similarities (length similarities))
    with (cumulative_best similarities) in Hmax, Hfirst, Hrange.
  right. split_and!; [lia | | done | done].
  by apply Qlt_le_trans with (running_sum similarities i); [|apply Hmax].
Qed.

(** When no running sum is strictly positive, the first loop of the code
    keeps its initial index. *)
Lemma cumulative_loop_stays similarities :
  (∀ i, i < length similarities → (running_sum similarities i <= 0)%Q) →
  snd (cumulative_loop similarities) = 0.
Proof.
  intros Hnone.
  destruct (cumulative_loop_best similarities) as [[_ ->]|(Hb & Hpos & _)]; [done|].
  exfalso. eapply Qlt_not_le; [exact Hpos | by apply Hnone].
Qed.

Lemma threshold_best_snoc similarities sim :
  threshold_best (similarities ++ [sim])
  = (if Qgtb sim (3 # 10) then length similarities else threshold_best similarities).
Proof. unfold threshold_best. by rewrite enumerate_snoc, fold_left_app. Qed.

(** The second loop of the code, started from [0], is the specification's
    second heuristic. *)
Lemma threshold_loop_agrees similarities :
  threshold_loop similarities 0 = threshold_best similarities.
Proof.
  induction similarities as [|sim similarities IH] using rev_ind; [done|].
  rewrite threshold_loop_snoc, threshold_best_snoc, <- IH. unfold threshold_step.
  fold similarity_threshold. destruct (Qgtb sim similarity_threshold); [|done].
  apply Nat.max_r.
  destruct (threshold_loop_best similarities) as [[_ ->]|[(s & Hs & _) _]]; [lia|].
  apply lookup_lt_Some in Hs. lia.
Qed.



(** C6.  On a non-empty sequence of [n] similarities the returned index
    lies in [[0, n-1]]; on the empty sequence it is [0].  The same holds of
    [find_covered_slides] for the stored slides. *)
Theorem C6_coverage_index_in_range :
  (∀ similarities,
      match similarities with
      | [] => covered_index similarities = 0
      | _ => covered_index similarities < length similarities
      end)
  ∧ (∀ (ES : EmbeddingService) get_slides slide_id notes_embedding,
        match get_slides slide_id with
        | None | Some [] => find_covered_slides get_slides slide_id notes_embedding = 0
        | Some slide_data =>
            find_covered_slides get_slides slide_id notes_embedding < length slide_data
        end).
Proof.
  split; [apply covered_index_range|].
  intros ES get_slides slide_id notes_embedding. unfold find_covered_slides.
  destruct (get_slides slide_id) as [[|slide slide_data]|]; [done| |done].
  pose proof (covered_index_range
    (map (λ sl, similarity notes_embedding (embedding sl)) (slide :: slide_data))) as H.
  simpl in H. simpl. by rewrite length_map in H.
Qed.

(** C7.  If the similarity at position [i] exceeds [0.3], the returned
    coverage index is at least [i]. *)
Theorem C7_threshold_raises_index similarities i s :
  similarities !! i = Some s → (3 # 10 < s)%Q → i ≤ covered_index similarities.
Proof.
  intros Hi Hs. rewrite covered_index_max.
  destruct (threshold_loop_best similarities) as [[Hnone _]|[_ Hmax]].
  - exfalso. by eapply Hnone.
  - etrans; [by eapply Hmax | apply Nat.le_max_r].
Qed.

Lemma C7_witness :
  [1 # 10; 2 # 10; 6 # 10]%Q !! 2 = Some (6 # 10)%Q
  ∧ (3 # 10 < 6 # 10)%Q
  ∧ 2 ≤ covered_index [1 # 10; 2 # 10; 6 # 10]%Q.
Proof.
  split; [reflexivity|]. split; [reflexivity|].
  apply (C7_threshold_raises_index [1 # 10; 2 # 10; 6 # 10]%Q 2 (6 # 10)%Q);
    reflexivity.
Defined.

End CoverageClaims.

(** * Misconception detection *)

Section Detect.
Import MisconceptionDetector DetectSpec.
Context `{ES : EmbeddingService}.
Variable use_llm : bool.
Variable chat_completion : str → str → str → option str.

Lemma best_match_index note_emb (lecture_embeddings : list Emb) :
  let idx := snd (best_match note_emb lecture_embeddings) in
  idx = (-1)%Z ∨ (0 ≤ idx < Z.of_nat (length lecture_embeddings))%Z.
Proof.
  unfold best_match.
  induction lecture_embeddings as [|e l IH] using rev_ind; [by left|].
  rewrite enumerate_snoc, fold_left_app. simpl.
  destruct (fold_left _ (enumerate l) _) as [m idx]. simpl in IH.
  rewrite length_app. simpl.
  destruct (Qgtb _ m); simpl; [right; lia | destruct IH; [by left | right; lia]].
Qed.

Lemma best_match_nil note_emb : best_match note_emb [] = (0%Q, (-1)%Z).
Proof. done. Qed.

Lemma detect_inv_mono note_sentences k ms :
  detect_inv note_sentences k ms → detect_inv note_sentences (S k) ms.
Proof.
  intros (Hall & Hsorted & Hlen). split_and!; [|done|lia].
  eapply Forall_impl; [exact Hall|]. intros m [? ?]. split; [lia|done].
Qed.

Lemma detect_inv_snoc note_sentences k ms note_sentence correction :
  note_sentences !! k = Some note_sentence →
  detect_inv note_sentences k ms →
  detect_inv note_sentences (S k)
    (ms ++ [ {| Misconception.text := note_sentence;
               Misconception.suggestion := correction;
               Misconception.position := k |} ]).
Proof.
  intros Hk (Hall & Hsorted & Hlen). split_and!.
  - apply Forall_app. split.
    + eapply Forall_impl; [exact Hall|]. intros m [? ?]. split; [lia|done].
    + apply Forall_singleton. simpl. split; [lia|done].
  - rewrite map_app. apply StronglySorted_app_2; [|done|].
    + intros a b Ha Hb. simpl in Hb. apply list_elem_of_singleton in Hb as ->.
      apply list_elem_of_fmap in Ha as (m & -> & Hm).
      rewrite Forall_forall in Hall. by apply Hall.
    + simpl. repeat constructor.
  - rewrite length_app. simpl. lia.
Qed.

(** One iteration of the outer loop never raises and keeps the
    invariant. *)
Lemma detect_step_inv lecture_text lecture_sentences note_sentences k note_sentence ms :
  note_sentences !! k = Some note_sentence →
  detect_inv note_sentences k ms →
  ∃ ms',
    detect_step use_llm chat_completion lecture_text lecture_sentences
      (embed_batch note_sentences) (embed_batch lecture_sentences)
      (Some ms) (k, note_sentence) = Some ms'
    ∧ detect_inv note_sentences (S k) ms'.
Proof.
  intros Hk Hinv. unfold detect_step, embed_batch. simpl.
  rewrite list_lookup_fmap, Hk. simpl.
  pose proof (best_match_index (encode note_sentence) (map encode lecture_sentences)) as Hidx.
  destruct (best_match _ _) as [m idx]. simpl in Hidx.
  destruct (Qgtb m (5 # 10) && (0 <=? idx)%Z) eqn:Hcond;
    [|eauto using detect_inv_mono].
  apply andb_true_iff in Hcond as [_ Hnonneg]. apply Z.leb_le in Hnonneg.
  destruct Hidx as [->|Hidx]; [lia|]. rewrite length_map in Hidx.
  destruct (lookup_lt_is_Some_2 lecture_sentences (Z.to_nat idx)) as [ls Hls]; [lia|].
  rewrite Hls. simpl.
  destruct use_llm.
  - destruct (_check_with_llm _ _ _ _) as [[] correction];
      eauto using detect_inv_mono, detect_inv_snoc.
  - destruct (Qgtb _ contradiction_threshold);
      eauto using detect_inv_mono, detect_inv_snoc.
Qed.

Lemma detect_prefix_inv lecture_text lecture_sentences note_sentences ns rest :
  note_sentences = ns ++ rest →
  ∃ ms,
    fold_left
      (detect_step use_llm chat_completion lecture_text lecture_sentences
         (embed_batch note_sentences) (embed_batch lecture_sentences))
      (enumerate ns) (Some []) = Some ms
    ∧ detect_inv note_sentences (length ns) ms.
Proof.
  revert rest. induction ns as [|x ns IH] using rev_ind; intros rest Heq.
  - exists []. split; [done|]. split_and!; [constructor | constructor | done].
  - destruct (IH ([x] ++ rest)) as (ms & Hms & Hinv); [by rewrite Heq, <- app_assoc|].
    rewrite enumerate_snoc, fold_left_app, Hms, length_app. simpl.
    rewrite Nat.add_1_r. apply detect_step_inv; [|done].
    rewrite Heq, <- app_assoc. by rewrite lookup_app_r, Nat.sub_diag.
Qed.

Lemma detect_total notes_text (slide_data : list Slide) :
  ∃ ms,
    detect use_llm chat_completion notes_text slide_data = Some ms
    ∧ detect_inv (_split_into_sentences notes_text)
        (length (_split_into_sentences notes_text)) ms.
Proof. unfold detect. eapply detect_prefix_inv. by rewrite app_nil_r. Qed.

(** Without lecture sentences no iteration adds an entry. *)
Lemma detect_step_no_lecture lecture_text note_sentences k note_sentence ms :
  note_sentences !! k = Some note_sentence →
  detect_step use_llm chat_completion lecture_text []
    (embed_batch note_sentences) (embed_batch []) (Some ms) (k, note_sentence)
  = Some ms.
Proof.
  intros Hk. unfold detect_step, embed_batch. simpl.
  by rewrite list_lookup_fmap, Hk.
Qed.

Lemma detect_no_lecture lecture_text note_sentences ns rest :
  note_sentences = ns ++ rest →
  fold_left
    (detect_step use_llm chat_completion lecture_text []
       (embed_batch note_sentences) (embed_batch []))
    (enumerate ns) (Some []) = Some [].
Proof.
  revert rest. induction ns as [|x ns IH] using rev_ind; intros rest Heq; [done|].
  rewrite enumerate_snoc, fold_left_app, (IH ([x] ++ rest)) by (by rewrite Heq, <- app_assoc).
  cbn [fold_left]. apply detect_step_no_lecture.
  rewrite Heq, <- app_assoc. by rewrite lookup_app_r, Nat.sub_diag.
Qed.

Lemma detect_empty_notes (slide_data : list Slide) :
  detect use_llm chat_completion [] slide_data = Some [].
Proof. done. Qed.

Lemma detect_empty_slides notes_text :
  detect use_llm chat_completion notes_text [] = Some [].
Proof. unfold detect. simpl. eapply detect_no_lecture. by rewrite app_nil_r. Qed.

End Detect.

(** * The heuristic contradiction score *)

Section Contradiction.
Import MisconceptionDetector Scenario.
Context `{ES : EmbeddingService}.

Lemma negation_fold_nonneg note_lower lecture_lower (words : list (str * str)) (acc : Q) :
  (0 <= acc)%Q →
  (acc <= fold_left (negation_step note_lower lecture_lower) words acc)%Q.
Proof.
  revert acc. induction words as [|[neg pos] words IH]; intros acc Hacc; simpl.
  - apply Qle_refl.
  - assert (acc <= acc + (3 # 10))%Q as Hstep.
    { rewrite <- (Qplus_0_r acc) at 1. by apply Qplus_le_r. }
    repeat case_match; try (by apply IH).
    all: eapply Qle_trans; [exact Hstep | apply IH; by eapply Qle_trans].
Qed.

(** The score is a confidence in [[0, 1]]. *)
Lemma check_contradiction_bounds note_sentence lecture_sentence :
  (0 <= _check_contradiction note_sentence lecture_sentence <= 1)%Q.
Proof.
  unfold _check_contradiction.
  set (base := fold_left _ contradiction_words 0%Q).
  assert (0 <= base)%Q as Hbase by (by apply negation_fold_nonneg).
  assert (0 <= base + (4 # 10))%Q as Hplus.
  { eapply Qle_trans; [exact Hbase|].
    rewrite <- (Qplus_0_r base) at 1. by apply Qplus_le_r. }
  split; [|apply Q.le_min_r].
  apply Q.min_glb; [|done]. repeat case_match; done.
Qed.

(** The numeric rule: both sentences carry numeric tokens, no token is
    shared, and the two sentences embedded on their own are closer than
    [0.6]. *)
Lemma check_contradiction_numbers note_sentence lecture_sentence :
  findall_numbers note_sentence ≠ [] →
  findall_numbers lecture_sentence ≠ [] →
  Forall (λ x, x ∉ findall_numbers lecture_sentence) (findall_numbers note_sentence) →
  (6 # 10 < similarity (embed note_sentence) (embed lecture_sentence))%Q →
  (4 # 10 <= _check_contradiction note_sentence lecture_sentence)%Q.
Proof.
  intros Hnote Hlecture Hdisjoint Hsim. unfold _check_contradiction.
  set (base := fold_left _ contradiction_words 0%Q).
  assert (0 <= base)%Q as Hbase by (by apply negation_fold_nonneg).
  rewrite !bool_decide_eq_false_2 by done. simpl.
  rewrite bool_decide_eq_true_2.
  - apply Qgtb_true in Hsim. rewrite Hsim.
    apply Q.min_glb; [|done].
    rewrite <- (Qplus_0_l (4 # 10)) at 1. by apply Qplus_le_l.
  - apply size_empty_iff, elem_of_equiv_empty. rewrite Forall_forall in Hdisjoint.
    intros x [Hx1 Hx2]%elem_of_intersection.
    apply elem_of_list_to_set in Hx1, Hx2. by eapply Hdisjoint.
Qed.

Lemma split_note_range : _split_into_sentences note_range = [note_range].
Proof. vm_compute. reflexivity. Qed.
Lemma split_lecture_range : _split_into_sentences lecture_range = [lecture_range].
Proof. vm_compute. reflexivity. Qed.
Lemma split_note_negated : _split_into_sentences note_negated = [note_negated].
Proof. vm_compute. reflexivity. Qed.
Lemma split_lecture_plain : _split_into_sentences lecture_plain = [lecture_plain].
Proof. vm_compute. reflexivity. Qed.

Lemma check_contradiction_range :
  _check_contradiction note_range lecture_range = 0%Q.
Proof. vm_compute. reflexivity. Qed.

Lemma check_contradiction_negated :
  _check_contradiction note_negated lecture_plain = (3 # 10)%Q.
Proof. vm_compute. reflexivity. Qed.

(** In heuristic mode, a single note sentence matched against a single
    lecture sentence is dropped whenever its score does not exceed the
    threshold, whatever the embeddings are. *)
Lemma detect_single_unflagged chat_completion note_sentence lecture_sentence
    (slide : Slide) :
  text slide = lecture_sentence →
  _split_into_sentences note_sentence = [note_sentence] →
  _split_into_sentences lecture_sentence = [lecture_sentence] →
  Qgtb (_check_contradiction note_sentence lecture_sentence) contradiction_threshold = false →
  detect false chat_completion note_sentence [slide] = Some [].
Proof.
  intros Htext Hnote Hlecture Hscore. unfold detect.
  cbn [map Str.join]. rewrite Htext, Hnote, Hlecture.
  cbn [enumerate length seq zip zip_with fold_left embed_batch map].
  unfold detect_step. cbn [lookup list_lookup mbind option_bind].
  unfold best_match. cbn [enumerate length seq zip zip_with fold_left best_match_step].
  destruct (Qgtb (similarity _ _) 0); cbn [Z.of_nat Z.to_nat].
  - destruct (Qgtb _ (5 # 10) && _); [|done].
    change (Z.to_nat (Z.of_nat 0)) with 0.
    cbn [lookup list_lookup mbind option_bind]. by rewrite Hscore.
  - destruct (Qgtb 0 (5 # 10)) eqn:E; [discriminate E|done].
Qed.

End Contradiction.

Section ContradictionClaims.
Import MisconceptionDetector Scenario.

Lemma detect_single_flagged `{ES : EmbeddingService} chat_completion
    note_sentence lecture_sentence (slide : Slide) :
  text slide = lecture_sentence →
  _split_into_sentences note_sentence = [note_sentence] →
  _split_into_sentences lecture_sentence = [lecture_sentence] →
  (5 # 10 < similarity (embed note_sentence) (embed lecture_sentence))%Q →
  Qgtb (_check_contradiction note_sentence lecture_sentence) contradiction_threshold = true →
  detect false chat_completion note_sentence [slide]
  = Some [ {| Misconception.text := note_sentence;
              Misconception.suggestion := take 200 lecture_sentence;
              Misconception.position := 0 |} ].
Proof.
  intros Htext Hnote Hlecture Hsim Hscore. unfold detect.
  cbn [map Str.join]. rewrite Htext, Hnote, Hlecture.
  cbn [enumerate length seq zip zip_with fold_left embed_batch map].
  unfold detect_step. cbn [lookup list_lookup mbind option_bind].
  unfold best_match. cbn [enumerate length seq zip zip_with fold_left best_match_step].
  unfold embed in Hsim.
  assert (Qgtb (similarity (encode note_sentence) (encode lecture_sentence)) 0 = true) as ->.
  { apply Qgtb_true. by apply Qlt_trans with (5 # 10)%Q. }
  apply Qgtb_true in Hsim. rewrite Hsim.
  change (Z.to_nat (Z.of_nat 0)) with 0.
  cbn [andb Z.leb Z.of_nat Z.compare lookup list_lookup mbind option_bind].
  by rewrite Hscore.
Qed.




(** C4 (as amended).  For the note sentence "The tool is not mandatory."
    and the lecture sentence "The tool is mandatory." the antonym rule
    contributes [0.3], for the pair [(not, is)], and nothing else does; the
    score is exactly [0.3], which does not exceed the threshold [0.3], so
    the pair is not flagged, whatever the similarity. *)
Theorem C4_single_negation_not_flagged `{ES : EmbeddingService} chat_completion :
  fold_left (negation_step (Str.lower note_negated) (Str.lower lecture_plain))
    contradiction_words 0%Q = (3 # 10)%Q
  ∧ _check_contradiction note_negated lecture_plain = (3 # 10)%Q
  ∧ Qgtb (_check_contradiction note_negated lecture_plain) contradiction_threshold = false
  ∧ detect false chat_completion note_negated [slide_of lecture_plain] = Some [].
Proof.
  split_and!.
  - vm_compute. reflexivity.
  - apply check_contradiction_negated.
  - by rewrite check_contradiction_negated.
  - apply (detect_single_unflagged chat_completion note_negated lecture_plain);
      [done | apply split_note_negated | apply split_lecture_plain |].
    by rewrite check_contradiction_negated.
Qed.

(** C4 as the specification states it fails: with an embedding service
    that puts the two sentences closer than [0.5], the pair is matched and
    scored, and the note sentence is not flagged. *)
Lemma C4_counterexample :
  (5 # 10 < similarity (EmbeddingService := length_service)
              (embed note_negated) (embed lecture_plain))%Q
  ∧ detect (ES := length_service) false no_client note_negated [slide_of lecture_plain]
    = Some [].
Proof. split; vm_compute; reflexivity. Qed.

End ContradictionClaims.

(** * Degenerate inputs and the shape of the result of [detect] *)

Section DetectClaims.
Import AlignmentService ConceptDetector MisconceptionDetector DetectSpec Scenario.

Lemma drop_while_all (p : ascii → bool) (s : str) :
  Forall (λ c, p c = true) s → Str.drop_while p s = [].
Proof. induction 1 as [|c s Hc _ IH]; simpl; [done | by rewrite Hc]. Qed.

Lemma strip_whitespace (s : str) :
  Forall (λ c, Char.isspace c = true) s → Str.strip s = [].
Proof.
  intros Hs. unfold Str.strip, Str.lstrip. by rewrite drop_while_all.
Qed.

Lemma StronglySorted_lt_NoDup (l : list nat) : StronglySorted lt l → NoDup l.
Proof.
  induction 1 as [|x l _ IH Hall]; constructor; [|done].
  intros Hx. rewrite Forall_forall in Hall. specialize (Hall x Hx). lia.
Qed.

(** C9.  Degenerate inputs give the empty result and raise nothing:
    concept extraction on an empty or whitespace-only text returns the empty
    set; the coverage index of an absent or empty slide list is [0];
    misconception detection on an empty notes text, or on an empty slide
    list, returns the empty list. *)
Theorem C9_degenerate_inputs `{ES : EmbeddingService}
    (use_llm : bool) (_extract_with_llm _extract_from_text_fallback : str → gset str)
    (chat_completion : str → str → str → option str)
    (get_slides : str → option (list Slide))
    (text : str) (slide_id : str) (notes_embedding : Emb)
    (notes_text : str) (slide_data : list Slide) :
  Forall (λ c, Char.isspace c = true) text →
  get_slides slide_id = None ∨ get_slides slide_id = Some [] →
  extract_concepts_from_text use_llm _extract_with_llm _extract_from_text_fallback text = ∅
  ∧ find_covered_slides get_slides slide_id notes_embedding = 0
  ∧ covered_index [] = 0
  ∧ detect use_llm chat_completion [] slide_data = Some []
  ∧ detect use_llm chat_completion notes_text [] = Some [].
Proof.
  intros Htext Hslides. split_and!.
  - unfold extract_concepts_from_text. by rewrite strip_whitespace.
  - unfold find_covered_slides. by destruct Hslides as [-> | ->].
  - done.
  - apply detect_empty_notes.
  - apply detect_empty_slides.
Qed.

Lemma C9_witness :
  Forall (λ c, Char.isspace c = true) (py "   ")
  ∧ (empty_store (H := length_service) (py "deck") = None
     ∨ empty_store (H := length_service) (py "deck") = Some [])
  ∧ extract_concepts_from_text false (λ _, ∅) (λ s, {[ s ]}) (py "   ") = ∅
  ∧ find_covered_slides (ES := length_service) empty_store (py "deck") 7 = 0
  ∧ detect (ES := length_service) false no_client [] [slide_of lecture_range] = Some []
  ∧ detect (ES := length_service) false no_client note_range [] = Some [].
Proof.
  assert (Forall (λ c, Char.isspace c = true) (py "   ")) as Hspace
    by (repeat constructor).
  split; [exact Hspace|]. split; [right; reflexivity|].
  pose proof (C9_degenerate_inputs (ES := length_service) false (λ _, ∅) (λ s, {[ s ]})
                no_client empty_store (py "   ") (py "deck") 7
                note_range [slide_of lecture_range] Hspace (or_intror eq_refl))
    as (H1 & H2 & _ & H3 & H4).
  split; [exact H1|]. split; [exact H2|]. split; [exact H3 | exact H4].
Defined.

(** C10.  [detect] always returns a list; it holds at most one entry per
    split note sentence; the position of an entry is the 0-based index of
    its note sentence among the split note sentences; and the positions
    are strictly increasing along the list, hence pairwise distinct. *)
Theorem C10_one_candidate_per_sentence `{ES : EmbeddingService}
    (use_llm : bool) (chat_completion : str → str → str → option str)
    (notes_text : str) (slide_data : list Slide) :
  ∃ misconceptions,
    detect use_llm chat_completion notes_text slide_data = Some misconceptions
    ∧ length misconceptions ≤ length (_split_into_sentences notes_text)
    ∧ Forall (λ m, _split_into_sentences notes_text !! Misconception.position m
                   = Some (Misconception.text m)) misconceptions
    ∧ StronglySorted lt (map Misconception.position misconceptions)
    ∧ NoDup (map Misconception.position misconceptions).
Proof.
  destruct (detect_total use_llm chat_completion notes_text slide_data)
    as (ms & Hms & Hall & Hsorted & Hlen).
  exists ms. split_and!; [done | done | | done | by apply StronglySorted_lt_NoDup].
  eapply Forall_impl; [exact Hall|]. by intros m [_ ?].
Qed.

End DetectClaims.

(** * The sentence splitter *)

Section Splitter.
Import MisconceptionDetector SplitSpec.

Lemma take_drop_while (p : ascii → bool) (s : str) :
  Str.take_while p s ++ Str.drop_while p s = s.
Proof. induction s as [|c s IH]; simpl; [done|]. destruct (p c); simpl; congruence. Qed.

Lemma take_while_Forall (p : ascii → bool) (s : str) :
  Forall (λ c, p c = true) (Str.take_while p s).
Proof.
  induction s as [|c s IH]; simpl; [constructor|].
  destruct (p c) eqn:Hc; by constructor.
Qed.

Lemma take_while_drop_while (p : ascii → bool) (s : str) :
  Str.take_while p (Str.drop_while p s) = [].
Proof.
  induction s as [|c s IH]; simpl; [done|].
  destruct (p c) eqn:Hc; [done|]. simpl. by rewrite Hc.
Qed.

Lemma take_while_nil_app_l (p : ascii → bool) (a b : str) :
  Str.take_while p (a ++ b) = [] → Str.take_while p a = [].
Proof. destruct a as [|c a]; [done|]. simpl. by destruct (p c). Qed.

Lemma drop_while_nil_take (p : ascii → bool) (s : str) :
  Str.take_while p s = [] → Str.drop_while p s = s.
Proof. destruct s as [|c s]; [done|]. simpl. by destruct (p c). Qed.

Lemma drop_while_length (p : ascii → bool) (s : str) :
  length (Str.drop_while p s) ≤ length s.
Proof. induction s as [|c s IH]; simpl; [done|]. destruct (p c); simpl; lia. Qed.

Lemma terminator_not_space (c : ascii) :
  Char.isterminator c = true → Char.isspace c = false.
Proof.
  unfold Char.isterminator, Char.isspace, Char.between.
  rewrite !orb_true_iff, !N.eqb_eq. intros [[->| ->]| ->]; reflexivity.
Qed.

Lemma has_match_cons (c : ascii) (s : str) :
  has_match (c :: s) = false → has_match s = false.
Proof. destruct s as [|w s]; simpl; [done|]. by intros [_ ?]%orb_false_iff. Qed.

Lemma has_match_app_l (s1 s2 : str) :
  has_match (s1 ++ s2) = false → has_match s1 = false.
Proof.
  induction s1 as [|c s1 IH]; [done|]. intros H.
  destruct s1 as [|w s1]; [done|].
  simpl in *. apply orb_false_iff in H as [-> H]. simpl. by apply IH.
Qed.

(** Appending a character that does not complete a match. *)
Lemma has_match_snoc (s : str) (c w : ascii) :
  has_match (s ++ [c]) = false →
  Char.isterminator c && Char.isspace w = false →
  has_match ((s ++ [c]) ++ [w]) = false.
Proof.
  intros Hs Hcw. induction s as [|a s IH]; simpl.
  - by rewrite Hcw.
  - destruct s as [|b s]; simpl in *.
    + apply orb_false_iff in Hs as [-> _]. by rewrite Hcw.
    + apply orb_false_iff in Hs as [-> Hs]. simpl. by apply IH.
Qed.

Lemma re_split_go_skip_space (c : ascii) (s : str) :
  Char.isspace c = true → re_split_go true [] (c :: s) = re_split_go true [] s.
Proof. intros Hc. simpl. by rewrite Hc. Qed.

Lemma re_split_go_skip_other (c : ascii) (s : str) :
  Char.isspace c = false → re_split_go true [] (c :: s) = re_split_go false [] (c :: s).
Proof. intros Hc. simpl. by rewrite Hc. Qed.

Lemma re_split_go_splits (s : str) :
  (∀ cur, has_match (reverse cur ++ take 1 s) = false →
          splits (reverse cur ++ s) (re_split_go false cur s))
  ∧ splits (Str.drop_while Char.isspace s) (re_split_go true [] s).
Proof.
  induction s as [|c s' [IHfalse IHtrue]].
  - split.
    + intros cur Hcur. simpl in *. rewrite app_nil_r in *. by constructor.
    + by constructor.
  - assert (∀ cur, has_match (reverse cur ++ take 1 (c :: s')) = false →
                   splits (reverse cur ++ c :: s') (re_split_go false cur (c :: s')))
      as Hfalse.
    { intros cur Hcur. cbn [take] in Hcur.
      assert (∀ w, Char.isterminator c && Char.isspace w = false →
                   has_match (reverse (c :: cur) ++ [w]) = false) as Hnext.
      { intros w Hw. rewrite reverse_cons. by apply has_match_snoc. }
      assert (reverse cur ++ c :: s' = reverse (c :: cur) ++ s') as Htext
        by (by rewrite reverse_cons, <- app_assoc).
      cbn [re_split_go andb].
      destruct s' as [|w s''].
      - rewrite Htext. apply IHfalse. cbn [take]. rewrite app_nil_r.
        by rewrite reverse_cons.
      - destruct (Char.isterminator c && Char.isspace w) eqn:Hcw.
        + apply andb_true_iff in Hcw as [Hc Hw].
          rewrite <- (re_split_go_skip_space w s'') by done.
          replace (reverse cur ++ c :: w :: s'')
            with (reverse cur ++ c :: Str.take_while Char.isspace (w :: s'')
                    ++ Str.drop_while Char.isspace (w :: s''))
            by (by rewrite take_drop_while).
          apply splits_sep; [by eapply has_match_app_l | done | | | | done].
          * simpl. by rewrite Hw.
          * apply take_while_Forall.
          * apply take_while_drop_while.
        + rewrite Htext. apply IHfalse. cbn [take]. by apply Hnext. }
    split; [done|].
    destruct (Char.isspace c) eqn:Hc.
    + rewrite re_split_go_skip_space by done. simpl. by rewrite Hc.
    + rewrite re_split_go_skip_other by done. simpl. rewrite Hc.
      apply (Hfalse []). done.
Qed.

Lemma re_split_splits (text : str) : splits text (re_split text).
Proof. apply (proj1 (re_split_go_splits text) []). by destruct text. Qed.

(** [splits] determines the fragments. *)
Lemma has_match_sep (f : str) (c w : ascii) (s : str) :
  Char.isterminator c = true → Char.isspace w = true →
  has_match (f ++ c :: w :: s) = true.
Proof.
  intros Hc Hw. induction f as [|a f IH]; simpl.
  - by rewrite Hc, Hw.
  - destruct (f ++ c :: w :: s) eqn:E; [by destruct f|].
    rewrite IH. apply orb_true_r.
Qed.

Lemma take_while_app_all (p : ascii → bool) (ws rest : str) :
  Forall (λ w, p w = true) ws → Str.take_while p rest = [] →
  Str.take_while p (ws ++ rest) = ws ∧ Str.drop_while p (ws ++ rest) = rest.
Proof.
  intros Hws Hrest. induction Hws as [|w ws Hw _ [IH1 IH2]]; simpl.
  - split; [done | by apply drop_while_nil_take].
  - rewrite Hw. split; [by rewrite IH1 | done].
Qed.

(** The first separator of a text starts where its first match starts. *)
Lemma first_match_unique (f f' : str) (c w c' w' : ascii) (r r' : str) :
  has_match f = false → has_match f' = false →
  Char.isterminator c = true → Char.isspace w = true →
  Char.isterminator c' = true → Char.isspace w' = true →
  f ++ c :: w :: r = f' ++ c' :: w' :: r' →
  f = f'.
Proof.
  intros Hf Hf' Hc Hw Hc' Hw'. revert f' Hf'.
  induction f as [|a f IH]; intros [|a' f'] Hf' Heq; [done| | |].
  - exfalso. simpl in Heq. injection Heq as <- Heq.
    destruct f' as [|b f']; simpl in Heq; injection Heq as <- Heq.
    + apply terminator_not_space in Hc'. congruence.
    + simpl in Hf'. by rewrite Hc, Hw in Hf'.
  - exfalso. simpl in Heq. injection Heq as -> Heq.
    destruct f as [|b f]; simpl in Heq; injection Heq as -> Heq.
    + apply terminator_not_space in Hc. congruence.
    + simpl in Hf. by rewrite Hc', Hw' in Hf.
  - simpl in Heq. injection Heq as -> Heq. f_equal.
    apply IH; [by eapply has_match_cons | by eapply has_match_cons | done].
Qed.

(** A text has one splitting only. *)
Lemma splits_unique (text : str) (fragments fragments' : list str) :
  splits text fragments → splits text fragments' → fragments = fragments'.
Proof.
  intros H. revert fragments'.
  induction H as [f Hf|f c ws rest fragments Hf Hc Hne Hws Hrest _ IH];
    intros fragments' H'.
  - inversion H' as [f' Hf' E1 E2|f' c' ws' rest' frs' Hf' Hc' Hne' Hws' Hrest' Hsp' E1 E2];
      [done|]. exfalso. subst.
    destruct ws' as [|w' ws']; [done|]. apply Forall_cons in Hws' as [Hw' _].
    pose proof (has_match_sep f' c' w' (ws' ++ rest') Hc' Hw') as Hm.
    cbn [app] in Hf. congruence.
  - destruct ws as [|w ws]; [done|]. pose proof Hws as Hws0.
    apply Forall_cons in Hws0 as [Hw _].
    inversion H' as [f' Hf' E1 E2|f' c' ws' rest' frs' Hf' Hc' Hne' Hws' Hrest' Hsp' E1 E2].
    + exfalso. subst. pose proof (has_match_sep f c w (ws ++ rest) Hc Hw) as Hm.
      cbn [app] in Hf'. congruence.
    + subst. destruct ws' as [|w' ws']; [done|]. pose proof Hws' as Hws0'.
      apply Forall_cons in Hws0' as [Hw' _].
      assert (f' = f) as ->.
      { eapply (first_match_unique f' f c' w' c w); [done..|]. simpl in *. exact E1. }
      apply app_inv_head in E1.
      assert ((w' :: ws') ++ rest' = (w :: ws) ++ rest) as E
        by (simpl in *; congruence).
      destruct (take_while_app_all Char.isspace (w :: ws) rest Hws Hrest) as [_ D1].
      destruct (take_while_app_all Char.isspace (w' :: ws') rest' Hws' Hrest') as [_ D2].
      rewrite E, D1 in D2. subst rest'.
      f_equal. by apply IH.
Qed.

(** [re.split] computes the splitting. *)
Lemma re_split_unique (text : str) (fragments : list str) :
  splits text fragments ↔ fragments = re_split text.
Proof.
  split.
  - intros H. by apply (splits_unique text); [|apply re_split_splits].
  - intros ->. apply re_split_splits.
Qed.

End Splitter.

Section SplitterClaims.
Import MisconceptionDetector SplitSpec.

Lemma split_into_sentences_elem (text s : str) :
  s ∈ _split_into_sentences text
  ↔ ∃ f, f ∈ re_split text ∧ s = Str.strip f ∧ 11 ≤ length (Str.strip f).
Proof.
  unfold _split_into_sentences. rewrite list_elem_of_fmap. split.
  - intros (f & -> & [Hlen Hf]%list_elem_of_filter). exists f. split_and!; [done..|lia].
  - intros (f & Hf & -> & Hlen). exists f. split; [done|].
    apply list_elem_of_filter. split; [lia|done].
Qed.

(** C8 (as amended).  The splitter cuts the text at every terminator
    ([.], [!] or [?]) that is followed by whitespace, the separator being
    the terminator and the whole run of whitespace after it; it keeps, in
    order and trimmed, exactly the fragments whose trimmed length is more
    than 10 characters.  A fragment whose trimmed length is 11 or more is
    retained; one whose trimmed length is 10 or less is discarded. *)
Theorem C8_sentence_splitter (text : str) :
  (∀ fragments, splits text fragments ↔ fragments = re_split text)
  ∧ _split_into_sentences text
    = map Str.strip (filter (λ f, 11 ≤ length (Str.strip f)) (re_split text))
  ∧ ∀ f, f ∈ re_split text →
         (Str.strip f ∈ _split_into_sentences text ↔ 11 ≤ length (Str.strip f)).
Proof.
  split_and!.
  - apply re_split_unique.
  - reflexivity.
  - intros f Hf. rewrite split_into_sentences_elem. split.
    + by intros (f' & _ & -> & Hlen).
    + intros Hlen. by exists f.
Qed.

(** C8 as the specification states it fails: the text "It is bad." is one
    fragment whose trimmed length is exactly 10, and it is discarded. *)
Lemma C8_counterexample :
  re_split (py "It is bad.") = [py "It is bad."]
  ∧ length (Str.strip (py "It is bad.")) = 10
  ∧ _split_into_sentences (py "It is bad.") = [].
Proof. split_and!; vm_compute; reflexivity. Qed.

End SplitterClaims.

(** * The concept filter *)

Section Filter.
Import ConceptDetector ConceptSpec.

Lemma rstrip_prefix (s : str) :
  s = Str.rstrip s ++ reverse (Str.take_while Char.isspace (reverse s)).
Proof.
  unfold Str.rstrip. rewrite <- reverse_app, take_drop_while.
  by rewrite reverse_involutive.
Qed.

Lemma strip_trimmed (s : str) : trimmed (Str.strip s).
Proof.
  unfold Str.strip, Str.lstrip. split.
  - apply take_while_nil_app_l
      with (b := reverse (Str.take_while Char.isspace
                            (reverse (Str.drop_while Char.isspace s)))).
    rewrite <- rstrip_prefix. apply take_while_drop_while.
  - unfold Str.rstrip. rewrite reverse_involutive. apply take_while_drop_while.
Qed.

Lemma trimmed_strip (s : str) : trimmed s → Str.strip s = s.
Proof.
  intros [Hlead Htrail]. unfold Str.strip, Str.lstrip, Str.rstrip.
  rewrite (drop_while_nil_take _ s) by done.
  rewrite (drop_while_nil_take _ (reverse s)) by done.
  apply reverse_involutive.
Qed.

(** A suffix of a trimmed string that has no leading whitespace is
    trimmed. *)
Lemma trimmed_suffix (pre s : str) :
  trimmed (pre ++ s) → Str.take_while Char.isspace s = [] → trimmed s.
Proof.
  intros [_ Htrail] Hlead. split; [done|].
  rewrite reverse_app in Htrail. by eapply take_while_nil_app_l.
Qed.

Lemma strip_numbering_suffix (s : str) : ∃ pre, s = pre ++ strip_numbering s.
Proof.
  unfold strip_numbering. destruct (Str.take_while Char.isbullet s) eqn:E.
  - by exists [].
  - exists (Str.take_while Char.isbullet s
            ++ Str.take_while Char.isspace (Str.drop_while Char.isbullet s)).
    by rewrite <- app_assoc, !take_drop_while.
Qed.

Lemma strip_numbering_trimmed (s : str) : trimmed s → trimmed (strip_numbering s).
Proof.
  intros Hs. destruct (strip_numbering_suffix s) as [pre Hpre].
  apply trimmed_suffix with pre; [by rewrite <- Hpre|].
  unfold strip_numbering. destruct (Str.take_while Char.isbullet s) eqn:E.
  - apply Hs.
  - apply take_while_drop_while.
Qed.

Lemma strip_numbering_plain (s : str) : ¬ numbered s → strip_numbering s = s.
Proof.
  unfold numbered, strip_numbering. intros Hs.
  destruct (Str.take_while Char.isbullet s); [done|]. by destruct Hs.
Qed.

Lemma strip_numbering_shorter (s : str) :
  numbered s → length (strip_numbering s) < length s.
Proof.
  unfold numbered, strip_numbering. intros Hs.
  destruct (Str.take_while Char.isbullet s) eqn:E; [done|].
  eapply Nat.le_lt_trans; [apply drop_while_length|].
  rewrite <- (take_drop_while Char.isbullet s) at 2. rewrite E, length_app. simpl. lia.
Qed.

(** [clean_concept] as one equation. *)
Lemma clean_concept_eq (concept : str) :
  clean_concept concept
  = if bool_decide (Str.strip concept = []) then None
    else if passes (strip_numbering (Str.strip concept))
         then Some (strip_numbering (Str.strip concept)) else None.
Proof.
  unfold clean_concept, passes.
  destruct (bool_decide (concept = [])) eqn:E0.
  { apply bool_decide_eq_true in E0 as ->. done. }
  destruct (bool_decide (Str.strip concept = [])); [done|].
  set (cc := strip_numbering (Str.strip concept)).
  destruct ((length cc <? 6) && negb (search_digit cc) && negb (search_capitalized cc));
    cbn [negb andb]; [done|].
  destruct (is_noise (Str.lower cc)); cbn [negb andb]; [done|].
  destruct (bool_decide (Str.split (Str.lower cc) = [])); cbn [negb andb]; [done|].
  destruct (Qgtb _ _ && _); cbn [negb andb]; [done|].
  by destruct (search_alpha3 cc).
Qed.

Lemma clean_concept_Some (concept d : str) :
  clean_concept concept = Some d
  ↔ Str.strip concept ≠ [] ∧ d = strip_numbering (Str.strip concept) ∧ passes d = true.
Proof.
  rewrite clean_concept_eq. case_bool_decide as Hstrip.
  { split; [done | by intros [? _]]. }
  destruct (passes (strip_numbering (Str.strip concept))) eqn:Hpass.
  - split; [intros [= <-]; done | intros (_ & -> & _); done].
  - split; [done | intros (_ & -> & H); congruence].
Qed.

Lemma passes_nonempty (d : str) : passes d = true → d ≠ [].
Proof. intros H ->. done. Qed.

Lemma clean_concept_image (concept d : str) :
  clean_concept concept = Some d → trimmed d ∧ passes d = true.
Proof.
  intros (_ & -> & Hpass)%clean_concept_Some. split; [|done].
  apply strip_numbering_trimmed, strip_trimmed.
Qed.

(** A kept concept that carries no numbering prefix is kept as it is. *)
Lemma clean_concept_fixed (d : str) :
  trimmed d → passes d = true → ¬ numbered d → clean_concept d = Some d.
Proof.
  intros Htrim Hpass Hplain. apply clean_concept_Some.
  rewrite trimmed_strip by done. split_and!.
  - by apply passes_nonempty.
  - by rewrite strip_numbering_plain.
  - done.
Qed.

(** A kept concept that carries one loses it, and so gets shorter. *)
Lemma clean_concept_numbered (d e : str) :
  trimmed d → numbered d → clean_concept d = Some e → length e < length d.
Proof.
  intros Htrim Hnum (_ & -> & _)%clean_concept_Some.
  rewrite trimmed_strip by done. by apply strip_numbering_shorter.
Qed.

(** No character of the model is one of the bullet glyphs. *)
Lemma search_glyph_never (s : str) : search_glyph s = false.
Proof.
  unfold search_glyph. induction s as [|c s IH]; [done|].
  cbn [existsb]. rewrite IH, orb_false_r.
  by destruct c as [[] [] [] [] [] [] [] []].
Qed.

Lemma filter_concepts_omap (concepts : gset str) :
  _filter_concepts concepts = set_omap clean_concept concepts.
Proof.
  unfold _filter_concepts. case_decide as H; [|done]. by rewrite H, set_omap_empty.
Qed.

Lemma elem_of_filter_concepts (concepts : gset str) (d : str) :
  d ∈ _filter_concepts concepts ↔ ∃ c, c ∈ concepts ∧ clean_concept c = Some d.
Proof. rewrite filter_concepts_omap. apply elem_of_set_omap. Qed.

End Filter.

Section FilterClaims.
Import ConceptDetector ConceptSpec.

(** Filtering a filtered set again keeps it when none of its members is
    numbered. *)
Lemma filter_concepts_fixed (concepts : gset str) :
  set_Forall (λ d, ¬ numbered d) (_filter_concepts concepts) →
  _filter_concepts (_filter_concepts concepts) = _filter_concepts concepts.
Proof.
  intros Hplain.
  assert (∀ d, d ∈ _filter_concepts concepts → clean_concept d = Some d) as Hfixed.
  { intros d Hd. pose proof (Hplain d Hd) as Hnum.
    apply elem_of_filter_concepts in Hd as (c & _ & [Htrim Hpass]%clean_concept_image).
    by apply clean_concept_fixed. }
  apply set_eq. intros d. rewrite (elem_of_filter_concepts (_filter_concepts _)). split.
  - intros (c & Hc & Hd). rewrite (Hfixed c Hc) in Hd. by injection Hd as <-.
  - intros Hd. exists d. split; [done | by apply Hfixed].
Qed.

(** Filtering a filtered set again changes it when one of its members is
    numbered: the longest numbered member is lost. *)
Lemma filter_concepts_moves (concepts : gset str) :
  _filter_concepts (_filter_concepts concepts) = _filter_concepts concepts →
  set_Forall (λ d, ¬ numbered d) (_filter_concepts concepts).
Proof.
  intros Hidem. set (F := _filter_concepts concepts) in *.
  set (B := filter (λ d : str, Str.take_while Char.isbullet d ≠ []) F).
  destruct (decide (B = ∅)) as [Hempty|Hne].
  { intros d Hd Hnum. apply (not_elem_of_empty (C := gset str) d).
    rewrite <- Hempty. apply elem_of_filter. split; done. }
  exfalso.
  assert (Transitive (λ x y : str, length y ≤ length x)) as Htrans
    by (intros x y z ? ?; lia).
  assert (∀ x y : str, Decision ((λ x y : str, length y ≤ length x) x y)) as Hdec
    by (intros x y; simpl; apply _).
  destruct (minimal_exists_elem_of_L (λ x y : str, length y ≤ length x) B Hne)
    as (d & [Hnum Hd]%elem_of_filter & Hmax).
  pose proof Hd as Hd'. rewrite <- Hidem in Hd'.
  apply elem_of_filter_concepts in Hd' as (c & Hc & Hclean).
  assert (trimmed c) as Htrim.
  { pose proof Hc as Hc'.
    apply elem_of_filter_concepts in Hc' as (c0 & _ & [? _]%clean_concept_image). done. }
  destruct (decide (numbered c)) as [Hcnum|Hcplain].
  - pose proof (clean_concept_numbered c d Htrim Hcnum Hclean) as Hlt.
    assert (c ∈ B) as HcB by (apply elem_of_filter; done).
    specialize (Hmax c HcB). simpl in Hmax. lia.
  - assert (clean_concept c = Some c) as Hfix.
    { apply elem_of_filter_concepts in Hc as (c0 & _ & [? ?]%clean_concept_image).
      by apply clean_concept_fixed. }
    rewrite Hfix in Hclean. injection Hclean as ->. done.
Qed.

(** C2 (as amended).  The filter removes one numbering prefix per pass, so it
    is idempotent exactly on the sets whose filtered members do not begin
    with a digit, [.], [)] or [-]: filtering the filtered set again returns
    it unchanged if and only if no member of the filtered set begins with
    one of these characters. *)
Theorem C2_filter_idempotent_iff (concepts : gset str) :
  _filter_concepts (_filter_concepts concepts) = _filter_concepts concepts
  ↔ set_Forall (λ d, ¬ numbered d) (_filter_concepts concepts).
Proof.
  split.
  - apply filter_concepts_moves.
  - apply filter_concepts_fixed.
Qed.

(** C2 as the specification states it fails: the bulleted concept
    "- 21 data sources" is kept as "21 data sources" by the first pass, and
    the second pass takes the number for a numbering prefix and keeps
    "data sources". *)
Lemma C2_counterexample :
  _filter_concepts {[ py "- 21 data sources" ]} = {[ py "21 data sources" ]}
  ∧ _filter_concepts (_filter_concepts {[ py "- 21 data sources" ]})
    = {[ py "data sources" ]}
  ∧ _filter_concepts (_filter_concepts {[ py "- 21 data sources" ]})
    ≠ _filter_concepts {[ py "- 21 data sources" ]}.
Proof.
  assert (_filter_concepts {[ py "- 21 data sources" ]} = {[ py "21 data sources" ]}) as H1.
  { rewrite filter_concepts_omap. apply set_omap_singleton_Some_L.
    vm_compute. reflexivity. }
  assert (_filter_concepts {[ py "21 data sources" ]} = {[ py "data sources" ]}) as H2.
  { rewrite filter_concepts_omap. apply set_omap_singleton_Some_L.
    vm_compute. reflexivity. }
  rewrite H1, H2. split_and!; [done..|].
  intros Heq. assert (py "data sources" ∈ ({[ py "21 data sources" ]} : gset str)) as Hin
    by (rewrite <- Heq; by apply elem_of_singleton).
  apply elem_of_singleton in Hin. discriminate Hin.
Qed.

End FilterClaims.

(** * Missing concepts *)

Section Missing.
Import ConceptDetector ConceptSpec.
Context `{ES : EmbeddingService}.

Lemma max_similarity_fold_lt (embs : list Emb) (e : Emb) (init t : Q) :
  (fold_left (λ m n, Qmax m (similarity e n)) embs init < t)%Q
  ↔ (init < t)%Q ∧ Forall (λ n, (similarity e n < t)%Q) embs.
Proof.
  revert init. induction embs as [|n embs IH]; intros init; simpl.
  - split; [intros H; split; [done | constructor] | by intros [? _]].
  - rewrite IH, Q.max_lub_lt_iff, Forall_cons. tauto.
Qed.

(** The gate lets a candidate through exactly when its similarity to every
    note concept is below the threshold. *)
Lemma below_threshold_spec (notes_list : list str) (c : str) :
  below_threshold notes_list c = true
  ↔ ∀ n, n ∈ notes_list → (similarity (embed c) (embed n) < 75 # 100)%Q.
Proof.
  unfold below_threshold, max_similarity_to, embed_batch, embed.
  rewrite Qltb_true, max_similarity_fold_lt, Forall_fmap, Forall_forall.
  unfold similarity_threshold. split; [by intros [_ ?] | intros H; split; [reflexivity | done]].
Qed.

Lemma missing_fold_filter (notes_list missing_list ns rest : list str) :
  missing_list = ns ++ rest →
  fold_left (missing_step (embed_batch missing_list) (embed_batch notes_list))
            (enumerate ns) (Some [])
  = Some (filter (λ c, below_threshold notes_list c = true) ns).
Proof.
  revert rest. induction ns as [|x ns IH] using rev_ind; intros rest Heq; [done|].
  rewrite enumerate_snoc, fold_left_app, (IH ([x] ++ rest))
    by (by rewrite Heq, <- app_assoc).
  cbn [fold_left]. unfold missing_step, embed_batch. simpl.
  rewrite list_lookup_fmap, Heq, <- app_assoc.
  rewrite lookup_app_r, Nat.sub_diag by done. simpl.
  rewrite filter_app, filter_cons, filter_nil.
  fold (embed_batch notes_list). fold (below_threshold notes_list x).
  destruct (below_threshold notes_list x) eqn:Hx.
  - by rewrite decide_True.
  - rewrite decide_False by (by intros ?). by rewrite app_nil_r.
Qed.

Lemma to_list_nil (to_list : gset str → list str) (X : gset str) :
  (∀ X, to_list X ≡ₚ elements X) → to_list X = [] ↔ X = ∅.
Proof.
  intros Hperm. split.
  - intros Hnil. apply leibniz_equiv, elements_empty_inv.
    apply Permutation_nil_r. by rewrite <- Hperm, Hnil.
  - intros ->. apply Permutation_nil_r. by rewrite Hperm, elements_empty.
Qed.

Lemma elem_of_to_list (to_list : gset str → list str) (X : gset str) (c : str) :
  (∀ X, to_list X ≡ₚ elements X) → c ∈ to_list X ↔ c ∈ X.
Proof. intros Hperm. by rewrite Hperm, elem_of_elements. Qed.

(** The result of [find_missing_concepts] in closed form. *)
Lemma find_missing_concepts_eq (to_list : gset str → list str)
    (lecture_concepts notes_concepts : gset str) :
  (∀ X, to_list X ≡ₚ elements X) →
  find_missing_concepts to_list lecture_concepts notes_concepts
  = Some (take 10
      (if decide (_filter_concepts notes_concepts = ∅)
       then to_list (_filter_concepts lecture_concepts ∖ _filter_concepts notes_concepts)
       else filter (λ c, below_threshold (to_list (_filter_concepts notes_concepts)) c = true)
              (to_list (_filter_concepts lecture_concepts
                          ∖ _filter_concepts notes_concepts)))).
Proof.
  intros Hperm. unfold find_missing_concepts.
  set (N := _filter_concepts notes_concepts).
  set (M := _filter_concepts lecture_concepts ∖ N).
  destruct (decide (M = ∅)) as [HM|HM].
  { rewrite (proj2 (to_list_nil to_list M Hperm) HM). by destruct (decide (N = ∅)). }
  case_bool_decide as HN.
  - apply (to_list_nil to_list N Hperm) in HN. by rewrite decide_True.
  - rewrite decide_False by (by rewrite <- (to_list_nil to_list N Hperm)).
    by rewrite (missing_fold_filter _ _ (to_list M) []) by (by rewrite app_nil_r).
Qed.

End Missing.

Section MissingClaims.
Import ConceptDetector ConceptSpec.

(** C5.  When the filtered note-concept set is empty, the result is the
    first 10 (at most) of the filtered exact-string difference, with no
    similarity gate.  When it is not empty, the candidates of the filtered
    exact-string difference that pass the gate are, in candidate order,
    exactly those whose embedding similarity to every note concept is
    strictly below [0.75], and the result is the first 10 (at most) of
    them.  In both cases the call returns. *)
Theorem C5_missing_concepts `{ES : EmbeddingService} (to_list : gset str → list str)
    (lecture_concepts notes_concepts : gset str) :
  (∀ X, to_list X ≡ₚ elements X) →
  (_filter_concepts notes_concepts = ∅ →
     find_missing_concepts to_list lecture_concepts notes_concepts
     = Some (take 10 (to_list (_filter_concepts lecture_concepts))))
  ∧ (_filter_concepts notes_concepts ≠ ∅ →
     ∃ truly_missing,
       find_missing_concepts to_list lecture_concepts notes_concepts
       = Some (take 10 truly_missing)
       ∧ truly_missing `sublist_of`
           to_list (_filter_concepts lecture_concepts ∖ _filter_concepts notes_concepts)
       ∧ ∀ c, c ∈ truly_missing
              ↔ c ∈ _filter_concepts lecture_concepts ∖ _filter_concepts notes_concepts
                ∧ ∀ n, n ∈ _filter_concepts notes_concepts →
                       (similarity (embed c) (embed n) < 75 # 100)%Q)
  ∧ (∃ result,
       find_missing_concepts to_list lecture_concepts notes_concepts = Some result
       ∧ length result ≤ 10
       ∧ ∀ c, c ∈ result →
              c ∈ _filter_concepts lecture_concepts ∖ _filter_concepts notes_concepts).
Proof.
  intros Hperm. rewrite (find_missing_concepts_eq to_list _ _ Hperm).
  split_and!.
  - intros HN. rewrite decide_True by done. rewrite HN.
    by rewrite difference_empty_L.
  - intros HN. rewrite decide_False by done. eexists. split; [done|]. split.
    + apply sublist_filter.
    + intros c. rewrite list_elem_of_filter, below_threshold_spec.
      rewrite (elem_of_to_list to_list _ c Hperm).
      setoid_rewrite (elem_of_to_list to_list _ _ Hperm). tauto.
  - eexists. split; [done|]. split.
    + rewrite length_take. lia.
    + intros c Hc. eapply elem_of_sublist in Hc; [|apply sublist_take]. case_decide.
      * apply (elem_of_to_list to_list _ c Hperm). done.
      * apply list_elem_of_filter in Hc as [_ Hc].
        by apply (elem_of_to_list to_list _ c Hperm).
Qed.

Lemma C5_witness :
  (∀ X : gset str, elements X ≡ₚ elements X)
  ∧ ∃ result,
      find_missing_concepts (ES := length_service) elements
        Scenario.lecture_set Scenario.notes_set = Some result
      ∧ length result ≤ 10
      ∧ ∀ c, c ∈ result →
             c ∈ _filter_concepts Scenario.lecture_set
                 ∖ _filter_concepts Scenario.notes_set.
Proof.
  split; [reflexivity|].
  apply (C5_missing_concepts (ES := length_service) elements
           Scenario.lecture_set Scenario.notes_set).
  reflexivity.
Defined.

End MissingClaims.

(** * Further properties of the contradiction score *)

Section Score.
Import MisconceptionDetector MisconceptionSpec.
Context `{ES : EmbeddingService}.

Lemma negation_step_matches note_lower lecture_lower (acc : Q) (p : str * str) :
  negation_step note_lower lecture_lower acc p
  = if pair_matches note_lower lecture_lower p then (acc + (3 # 10))%Q else acc.
Proof.
  destruct p as [neg pos]. unfold negation_step, pair_matches. simpl.
  destruct (Str.contains neg note_lower && Str.contains pos lecture_lower); [done|].
  by destruct (Str.contains pos note_lower && Str.contains neg lecture_lower).
Qed.

Lemma negation_fold_count note_lower lecture_lower (words : list (str * str)) (acc : Q) :
  (fold_left (negation_step note_lower lecture_lower) words acc
   == acc + (3 # 10) * inject_Z (Z.of_nat
              (length (List.filter (pair_matches note_lower lecture_lower) words))))%Q.
Proof.
  revert acc. induction words as [|p words IH]; intros acc.
  - simpl. ring.
  - cbn [fold_left List.filter]. rewrite IH, negation_step_matches.
    destruct (pair_matches note_lower lecture_lower p); [|reflexivity].
    cbn [length]. rewrite Nat2Z.inj_succ, <- Z.add_1_r, inject_Z_plus. ring.
Qed.

(** The score before the cap: [0.3] per matched antonym pair, and [0.4] when
    the numeric rule fires. *)
Lemma check_contradiction_value note_sentence lecture_sentence :
  ∃ raw : Q,
    _check_contradiction note_sentence lecture_sentence = Qmin raw 1
    ∧ (raw == (3 # 10) * inject_Z (Z.of_nat (antonym_matches note_sentence lecture_sentence))
              + (if numeric_conflict note_sentence lecture_sentence then 4 # 10 else 0))%Q.
Proof.
  unfold _check_contradiction, numeric_conflict, antonym_matches.
  set (base := fold_left _ contradiction_words 0%Q).
  assert (base == (3 # 10) * inject_Z (Z.of_nat (length (List.filter
            (pair_matches (Str.lower note_sentence) (Str.lower lecture_sentence))
            contradiction_words))))%Q as Hbase.
  { unfold base. rewrite negation_fold_count. ring. }
  destruct (negb (bool_decide (findall_numbers note_sentence = []))
            && negb (bool_decide (findall_numbers lecture_sentence = []))); cbn [andb].
  - destruct (bool_decide (size _ = 0)); cbn [andb].
    + destruct (Qgtb _ (6 # 10)); eexists; (split; [reflexivity|]); rewrite Hbase; ring.
    + eexists. split; [reflexivity|]. rewrite Hbase. ring.
  - eexists. split; [reflexivity|]. rewrite Hbase. ring.
Qed.

Lemma antonym_matches_comm note_sentence lecture_sentence :
  antonym_matches note_sentence lecture_sentence
  = antonym_matches lecture_sentence note_sentence.
Proof.
  unfold antonym_matches. f_equal. apply List.filter_ext. intros p.
  unfold pair_matches.
  destruct (Str.contains p.1 (Str.lower note_sentence)),
           (Str.contains p.2 (Str.lower lecture_sentence)),
           (Str.contains p.2 (Str.lower note_sentence)),
           (Str.contains p.1 (Str.lower lecture_sentence)); reflexivity.
Qed.

Lemma numeric_conflict_comm note_sentence lecture_sentence :
  (∀ a b, similarity a b == similarity b a)%Q →
  numeric_conflict note_sentence lecture_sentence
  = numeric_conflict lecture_sentence note_sentence.
Proof.
  intros Hsym. unfold numeric_conflict.
  rewrite (andb_comm (negb (bool_decide (findall_numbers note_sentence = [])))).
  f_equal; [f_equal|].
  - apply bool_decide_ext. by rewrite (comm_L (∩)).
  - unfold Qgtb. f_equal. apply eq_true_iff_eq. rewrite !Qle_bool_iff.
    by rewrite (Hsym (embed note_sentence)).
Qed.

End Score.

Section ScoreProperties.
Import MisconceptionDetector MisconceptionSpec.

(** X1.  The heuristic flags a pair of sentences exactly when at least two
    antonym pairs are matched or the numeric rule fires: one matched pair
    alone scores [0.3], which does not exceed the threshold. *)
Theorem X1_flagged_iff `{ES : EmbeddingService} (note_sentence lecture_sentence : str) :
  Qgtb (_check_contradiction note_sentence lecture_sentence) contradiction_threshold = true
  ↔ 2 ≤ antonym_matches note_sentence lecture_sentence
    ∨ numeric_conflict note_sentence lecture_sentence = true.
Proof.
  destruct (check_contradiction_value note_sentence lecture_sentence) as (raw & -> & Hraw).
  rewrite Qgtb_true. unfold contradiction_threshold.
  rewrite Q.min_glb_lt_iff, Hraw.
  set (k := antonym_matches note_sentence lecture_sentence).
  assert (0 <= inject_Z (Z.of_nat k))%Q as Hk0.
  { change 0%Q with (inject_Z 0). rewrite <- Zle_Qle. lia. }
  destruct (numeric_conflict note_sentence lecture_sentence).
  - split; [by right|]. intros _. split; [lra | reflexivity].
  - split.
    + intros [Hlt _]. left. destruct (decide (2 ≤ k)) as [|Hsmall]; [done|]. exfalso.
      assert (inject_Z (Z.of_nat k) <= 1)%Q as Hk1.
      { change 1%Q with (inject_Z 1). rewrite <- Zle_Qle. lia. }
      lra.
    + intros [Hk|Hfalse]; [|done]. split; [|reflexivity].
      assert (2 <= inject_Z (Z.of_nat k))%Q as Hk2.
      { change 2%Q with (inject_Z 2). rewrite <- Zle_Qle. lia. }
      lra.
Qed.

(** X2.  The score is a confidence between [0] and [1], and it does not
    depend on which of the two sentences is the note, as long as the
    similarity of two embeddings does not. *)
Theorem X2_score_bounded_symmetric `{ES : EmbeddingService}
    (note_sentence lecture_sentence : str) :
  (∀ a b, similarity a b == similarity b a)%Q →
  (0 <= _check_contradiction note_sentence lecture_sentence <= 1)%Q
  ∧ (_check_contradiction note_sentence lecture_sentence
     == _check_contradiction lecture_sentence note_sentence)%Q.
Proof.
  intros Hsym. split; [apply check_contradiction_bounds|].
  destruct (check_contradiction_value note_sentence lecture_sentence) as (r1 & -> & H1).
  destruct (check_contradiction_value lecture_sentence note_sentence) as (r2 & -> & H2).
  rewrite (antonym_matches_comm lecture_sentence note_sentence) in H2.
  rewrite (numeric_conflict_comm lecture_sentence note_sentence Hsym) in H2.
  assert (r1 == r2)%Q as Heq by (by rewrite H1, H2).
  by rewrite Heq.
Qed.

Lemma X2_witness :
  (∀ a b, similarity (EmbeddingService := length_service) a b
          == similarity (EmbeddingService := length_service) b a)%Q
  ∧ (0 <= _check_contradiction (ES := length_service)
            Scenario.note_range_disjoint Scenario.lecture_range <= 1)%Q
  ∧ (_check_contradiction (ES := length_service)
       Scenario.note_range_disjoint Scenario.lecture_range
     == _check_contradiction (ES := length_service)
          Scenario.lecture_range Scenario.note_range_disjoint)%Q.
Proof.
  assert (∀ a b, similarity (EmbeddingService := length_service) a b
                 == similarity (EmbeddingService := length_service) b a)%Q as Hsym.
  { intros a b. simpl. by rewrite Nat.min_comm, Nat.max_comm. }
  split; [exact Hsym|].
  apply (X2_score_bounded_symmetric (ES := length_service)
           Scenario.note_range_disjoint Scenario.lecture_range Hsym).
Defined.

End ScoreProperties.

(** * Further properties of [detect] *)

Section DetectClosedForm.
Import MisconceptionDetector MisconceptionSpec.
Context `{ES : EmbeddingService}.
Variable use_llm : bool.
Variable chat_completion : str → str → str → option str.

Lemma best_match_snoc note_emb (lecture_embeddings : list Emb) (e : Emb) :
  best_match note_emb (lecture_embeddings ++ [e])
  = best_match_step note_emb (best_match note_emb lecture_embeddings)
      (length lecture_embeddings, e).
Proof. unfold best_match. by rewrite enumerate_snoc, fold_left_app. Qed.

Lemma best_match_spec note_emb (lecture_embeddings : list Emb) :
  is_best_match note_emb lecture_embeddings (best_match note_emb lecture_embeddings).
Proof.
  induction lecture_embeddings as [|e l IH] using rev_ind.
  - left. split_and!; [|done..]. intros j e Hj. by rewrite lookup_nil in Hj.
  - rewrite best_match_snoc. destruct (best_match note_emb l) as [m idx].
    unfold best_match_step, is_best_match in *.
    assert (∀ i e', (l ++ [e]) !! i = Some e' →
                    l !! i = Some e' ∨ (i = length l ∧ e' = e)) as Hcases.
    { intros i e' Hi. apply lookup_app_Some in Hi as [Hi|[Hge Hi]]; [by left|].
      apply list_lookup_singleton_Some in Hi as [Hi <-]. right. split; [lia|done]. }
    destruct (Qgtb (similarity note_emb e) m) eqn:Hgt.
    + apply Qgtb_true in Hgt. right. exists (length l), e.
      assert (0 <= m)%Q as Hm.
      { destruct IH as [(_ & -> & _)|(j & e0 & _ & _ & _ & Hpos & _)];
          [apply Qle_refl | by apply Qlt_le_weak]. }
      assert (∀ i e', l !! i = Some e' → (similarity note_emb e' <= m)%Q) as Hle.
      { destruct IH as [(Hnone & -> & _)|(j & e0 & _ & _ & _ & _ & Hmax & _)]; eauto. }
      split_and!; [done | by rewrite lookup_app_r, Nat.sub_diag | done | | |].
      * by apply Qle_lt_trans with m.
      * intros i e' [Hi|[-> ->]]%Hcases; [|apply Qle_refl].
        apply Qlt_le_weak, Qle_lt_trans with m; eauto.
      * intros i e' Hlt [Hi|[-> ->]]%Hcases; [|lia].
        apply Qle_lt_trans with m; eauto.
    + apply Qgtb_false in Hgt.
      destruct IH as [(Hnone & -> & ->)|(j & e0 & -> & Hj & -> & Hpos & Hmax & Hfirst)].
      * left. split_and!; [|done..].
        intros i e' [Hi|[-> ->]]%Hcases; [by eapply Hnone | done].
      * right. exists j, e0. split_and!; [done | by apply lookup_app_l_Some | done..| |].
        -- intros i e' [Hi|[-> ->]]%Hcases; [by eapply Hmax | done].
        -- intros i e' Hlt [Hi|[-> ->]]%Hcases; [by eapply Hfirst|].
           apply lookup_lt_Some in Hj. lia.
Qed.

Lemma embed_batch_lookup (texts : list str) (i : nat) :
  embed_batch texts !! i = encode <$> texts !! i.
Proof. apply (list_lookup_fmap encode). Qed.

(** One iteration of the outer loop appends the report of its sentence. *)
Lemma detect_step_report lecture_text lecture_sentences note_sentences k note_sentence ms :
  note_sentences !! k = Some note_sentence →
  detect_step use_llm chat_completion lecture_text lecture_sentences
    (embed_batch note_sentences) (embed_batch lecture_sentences)
    (Some ms) (k, note_sentence)
  = Some (ms ++ option_list
                  (report use_llm chat_completion lecture_text lecture_sentences
                     (k, note_sentence))).
Proof.
  intros Hk. unfold detect_step, report, verdict. cbn [fst snd mbind option_bind].
  rewrite embed_batch_lookup, Hk. cbn [fmap option_fmap option_map mbind option_bind].
  pose proof (best_match_index (encode note_sentence) (embed_batch lecture_sentences)) as Hidx.
  destruct (best_match _ _) as [m idx]. simpl in Hidx.
  destruct (Qgtb m (5 # 10) && (0 <=? idx)%Z) eqn:Hcond;
    [|by rewrite app_nil_r].
  apply andb_true_iff in Hcond as [_ Hnonneg]. apply Z.leb_le in Hnonneg.
  destruct Hidx as [->|Hidx]; [lia|]. unfold embed_batch in Hidx. rewrite length_map in Hidx.
  destruct (lookup_lt_is_Some_2 lecture_sentences (Z.to_nat idx)) as [ls Hls]; [lia|].
  rewrite Hls. cbn [mbind option_bind].
  destruct use_llm.
  - destruct (_check_with_llm _ _ _ _) as [[] correction]; cbn [option_list];
      [done | by rewrite app_nil_r].
  - destruct (Qgtb _ contradiction_threshold); cbn [option_list];
      [done | by rewrite app_nil_r].
Qed.

Lemma detect_prefix_reports lecture_text lecture_sentences note_sentences ns rest :
  note_sentences = ns ++ rest →
  fold_left
    (detect_step use_llm chat_completion lecture_text lecture_sentences
       (embed_batch note_sentences) (embed_batch lecture_sentences))
    (enumerate ns) (Some [])
  = Some (omap (report use_llm chat_completion lecture_text lecture_sentences)
            (enumerate ns)).
Proof.
  revert rest. induction ns as [|x ns IH] using rev_ind; intros rest Heq; [done|].
  rewrite enumerate_snoc, fold_left_app, (IH ([x] ++ rest))
    by (by rewrite Heq, <- app_assoc).
  cbn [fold_left]. rewrite detect_step_report.
  - rewrite omap_app. reflexivity.
  - rewrite Heq, <- app_assoc. by rewrite lookup_app_r, Nat.sub_diag.
Qed.

(** [detect] without its loop. *)
Lemma detect_reports notes_text (slide_data : list Slide) :
  detect use_llm chat_completion notes_text slide_data
  = Some (omap (report use_llm chat_completion
                  (Str.join (py " ") (map text slide_data))
                  (_split_into_sentences (Str.join (py " ") (map text slide_data))))
            (enumerate (_split_into_sentences notes_text))).
Proof. unfold detect. eapply detect_prefix_reports. by rewrite app_nil_r. Qed.

Lemma elem_of_enumerate {A} (l : list A) (i : nat) (x : A) :
  (i, x) ∈ enumerate l ↔ l !! i = Some x.
Proof.
  unfold enumerate. rewrite list_elem_of_lookup. split.
  - intros (k & Hk). apply lookup_zip_with_Some in Hk as (a & b & [= <- <-] & Ha & Hb).
    apply lookup_seq in Ha as [-> _]. done.
  - intros Hi. exists i. by apply enumerate_lookup.
Qed.

End DetectClosedForm.

Section DetectProperties.
Import MisconceptionDetector MisconceptionSpec.

Lemma is_best_match_unique `{ES : EmbeddingService} note_emb
    (lecture_embeddings : list Emb) (r r' : Q * Z) :
  is_best_match note_emb lecture_embeddings r →
  is_best_match note_emb lecture_embeddings r' → r = r'.
Proof.
  destruct r as [m idx], r' as [m' idx']. unfold is_best_match.
  intros [(Hnone & -> & ->)|(j & e & -> & Hj & -> & Hpos & Hmax & Hfirst)]
         [(Hnone' & -> & ->)|(j' & e' & -> & Hj' & -> & Hpos' & Hmax' & Hfirst')]; [done| | |].
  - exfalso. eapply Qlt_not_le; [exact Hpos' | by eapply Hnone].
  - exfalso. eapply Qlt_not_le; [exact Hpos | by eapply Hnone'].
  - assert (j = j') as <-.
    { destruct (Nat.lt_trichotomy j j') as [Hlt|[->|Hlt]]; [|done|].
      - exfalso. eapply Qlt_not_le; [by eapply (Hfirst' j e) | by eapply Hmax].
      - exfalso. eapply Qlt_not_le; [by eapply (Hfirst j' e') | by eapply Hmax']. }
    rewrite Hj in Hj'. by injection Hj' as <-.
Qed.

(** X3.  In heuristic mode [detect] reports a note sentence exactly when the
    earliest lecture sentence of maximum similarity to it is closer than
    [0.5] and the pair scores more than [0.3]; the entry carries the
    sentence, its index among the note sentences, and that lecture sentence
    cut to 200 characters.  Nothing else is reported. *)
Theorem X3_detect_heuristic `{ES : EmbeddingService}
    (chat_completion : str → str → str → option str)
    (notes_text : str) (slide_data : list Slide) (m : Misconception.t) :
  (∃ misconceptions,
      detect false chat_completion notes_text slide_data = Some misconceptions
      ∧ m ∈ misconceptions)
  ↔ ∃ i note_sentence j lecture_sentence,
      _split_into_sentences notes_text !! i = Some note_sentence
      ∧ _split_into_sentences (Str.join (py " ") (map text slide_data)) !! j
        = Some lecture_sentence
      ∧ is_best_match (encode note_sentence)
          (embed_batch (_split_into_sentences (Str.join (py " ") (map text slide_data))))
          (similarity (encode note_sentence) (encode lecture_sentence), Z.of_nat j)
      ∧ (5 # 10 < similarity (encode note_sentence) (encode lecture_sentence))%Q
      ∧ Qgtb (_check_contradiction note_sentence lecture_sentence)
             contradiction_threshold = true
      ∧ m = {| Misconception.text := note_sentence;
               Misconception.suggestion := take 200 lecture_sentence;
               Misconception.position := i |}.
Proof.
  rewrite detect_reports.
  set (lecture_text := Str.join (py " ") (map text slide_data)).
  set (lecture_sentences := _split_into_sentences lecture_text).
  split.
  - intros (ms & [= <-] & Hm).
    apply list_elem_of_omap in Hm as ([i ns] & Hi%elem_of_enumerate & Hrep).
    unfold report, verdict in Hrep. cbn [fst snd] in Hrep.
    pose proof (best_match_spec (encode ns) (embed_batch lecture_sentences)) as Hbest.
    destruct (best_match _ _) as [mx idx].
    destruct (Qgtb mx (5 # 10) && (0 <=? idx)%Z) eqn:Hcond; [|done].
    apply andb_true_iff in Hcond as [Hmx%Qgtb_true Hidx%Z.leb_le].
    pose proof Hbest as Hbest'.
    destruct Hbest' as [(_ & _ & ->)|(j & e & -> & Hj & -> & _)]; [lia|].
    rewrite Nat2Z.id in Hrep. rewrite embed_batch_lookup in Hj.
    destruct (lecture_sentences !! j) as [ls|] eqn:Hls; [|done].
    injection Hj as <-. cbn [mbind option_bind] in Hrep.
    destruct (Qgtb (_check_contradiction ns ls) contradiction_threshold) eqn:Hflag; [|done].
    injection Hrep as <-. by exists i, ns, j, ls.
  - intros (i & ns & j & ls & Hi & Hls & Hbest & Hsim & Hflag & ->).
    eexists. split; [done|]. apply list_elem_of_omap.
    exists (i, ns). split; [by apply elem_of_enumerate|].
    unfold report, verdict. cbn [fst snd].
    rewrite (is_best_match_unique _ _ _ _
               (best_match_spec (encode ns) (embed_batch lecture_sentences)) Hbest).
    apply Qgtb_true in Hsim. rewrite Hsim.
    assert ((0 <=? Z.of_nat j)%Z = true) as -> by (apply Z.leb_le; lia).
    rewrite Nat2Z.id. fold lecture_text. fold lecture_sentences. rewrite Hls.
    cbn [andb mbind option_bind]. by rewrite Hflag.
Qed.

(** X4.  A client that fails on every call degrades nothing but quality: in
    LLM mode [detect] then returns what it returns in heuristic mode. *)
Theorem X4_detect_fallback `{ES : EmbeddingService}
    (chat_completion other_client : str → str → str → option str)
    (notes_text : str) (slide_data : list Slide) :
  (∀ note_sentence lecture_sentence context,
      chat_completion note_sentence lecture_sentence context = None) →
  detect true chat_completion notes_text slide_data
  = detect false other_client notes_text slide_data.
Proof.
  intros Hfail. rewrite !detect_reports. f_equal.
  apply list_omap_ext, Forall2_same_length_lookup. split; [done|].
  intros k [i ns] e Hk Hk'. rewrite Hk in Hk'. injection Hk' as <-.
  unfold report, verdict. cbn [fst snd].
  destruct (best_match _ _) as [mx idx].
  destruct (Qgtb mx (5 # 10) && (0 <=? idx)%Z); [|done].
  destruct (_ !! Z.to_nat idx) as [ls|]; [|done]. cbn [mbind option_bind].
  unfold _check_with_llm. rewrite Hfail.
  by destruct (Qgtb (_check_contradiction ns ls) contradiction_threshold).
Qed.

Lemma X4_witness :
  (∀ note_sentence lecture_sentence context,
      Scenario.no_client note_sentence lecture_sentence context = None)
  ∧ detect (ES := length_service) true Scenario.no_client
      Scenario.note_range_disjoint [Scenario.slide_of Scenario.lecture_range]
    = detect (ES := length_service) false (λ _ _ _, Some (py "NO"))
        Scenario.note_range_disjoint [Scenario.slide_of Scenario.lecture_range].
Proof.
  split; [reflexivity|].
  apply (X4_detect_fallback (ES := length_service)). reflexivity.
Defined.

End DetectProperties.

(** * Further properties of the sentence splitter and of the number scanner *)

Section Text.
Import MisconceptionDetector MisconceptionSpec SplitSpec TextSpec ConceptSpec.

Lemma infix_of_refl (s : str) : infix_of s s.
Proof. exists [], []. by rewrite app_nil_r. Qed.

Lemma infix_of_trans (s t u : str) : infix_of s t → infix_of t u → infix_of s u.
Proof.
  intros (p1 & s1 & ->) (p2 & s2 & ->). exists (p2 ++ p1), (s1 ++ s2).
  by rewrite <- !app_assoc.
Qed.

Lemma infix_of_app_l (s t pre : str) : infix_of s t → infix_of s (pre ++ t).
Proof. intros (p1 & s1 & ->). exists (pre ++ p1), s1. by rewrite <- !app_assoc. Qed.

Lemma infix_of_app_r (s t suf : str) : infix_of s t → infix_of s (t ++ suf).
Proof. intros (p1 & s1 & ->). exists p1, (s1 ++ suf). by rewrite <- !app_assoc. Qed.

Lemma has_match_app_r (s1 s2 : str) :
  has_match (s1 ++ s2) = false → has_match s2 = false.
Proof.
  induction s1 as [|c s1 IH]; [done|]. intros H. apply IH.
  by eapply has_match_cons.
Qed.

Lemma has_match_infix (s t : str) : infix_of s t → has_match t = false → has_match s = false.
Proof.
  intros (pre & suf & ->) H. apply has_match_app_r in H. by eapply has_match_app_l.
Qed.

Lemma strip_infix (s : str) : infix_of (Str.strip s) s.
Proof.
  unfold Str.strip, Str.lstrip.
  exists (Str.take_while Char.isspace s),
         (reverse (Str.take_while Char.isspace (reverse (Str.drop_while Char.isspace s)))).
  rewrite <- rstrip_prefix. by rewrite take_drop_while.
Qed.

Lemma splits_infix (text : str) (fragments : list str) :
  splits text fragments →
  Forall (λ f, infix_of f text ∧ has_match f = false) fragments.
Proof.
  induction 1 as [f Hf|f c ws rest fragments Hf Hc Hne Hws Hrest _ IH].
  - repeat constructor; [apply infix_of_refl | done].
  - constructor.
    + split; [|done]. exists [], (c :: ws ++ rest). done.
    + eapply Forall_impl; [exact IH|]. intros g [Hg ?]. split; [|done].
      apply infix_of_app_l. change (c :: ws ++ rest) with ((c :: ws) ++ rest).
      by apply infix_of_app_l.
Qed.

(** X5.  Every sentence the splitter returns is longer than 10 characters,
    has no whitespace at either end, holds no terminator followed by
    whitespace, and occurs verbatim in the text. *)
Theorem X5_sentences_well_formed (text s : str) :
  s ∈ _split_into_sentences text →
  10 < length s ∧ trimmed s ∧ has_match s = false ∧ infix_of s text.
Proof.
  intros (f & Hf & -> & Hlen)%split_into_sentences_elem.
  pose proof (splits_infix text (re_split text) (re_split_splits text)) as Hall.
  rewrite Forall_forall in Hall. destruct (Hall f Hf) as [Hinfix Hmatch].
  split_and!.
  - lia.
  - apply strip_trimmed.
  - eapply has_match_infix; [apply strip_infix | done].
  - eapply infix_of_trans; [apply strip_infix | done].
Qed.

Lemma X5_witness :
  py "This one is long enough"
    ∈ _split_into_sentences (py "Short one. This one is long enough! It is bad. ok")
  ∧ 10 < length (py "This one is long enough")
  ∧ trimmed (py "This one is long enough")
  ∧ has_match (py "This one is long enough") = false
  ∧ infix_of (py "This one is long enough")
      (py "Short one. This one is long enough! It is bad. ok").
Proof.
  assert (py "This one is long enough"
            ∈ _split_into_sentences (py "Short one. This one is long enough! It is bad. ok"))
    as Hin by (vm_compute; apply list_elem_of_here).
  split; [exact Hin|].
  apply (X5_sentences_well_formed _ _ Hin).
Defined.

Lemma ascii_of_code (c : ascii) (n : N) : Char.code c = n → c = ascii_of_N n.
Proof. intros <-. unfold Char.code. by rewrite ascii_N_embedding. Qed.

Lemma number_token_infraction (cur : str) :
  number_state_ok (InFraction cur) → number_token (reverse cur).
Proof. intros (ds & fs & Hne & Hds & Hfs & ->). exists ds, fs. by split_and!; [..|right]. Qed.

Lemma number_token_ininteger (cur : str) :
  number_state_ok (InInteger cur) → number_token (reverse cur).
Proof.
  intros [Hne Hall]. exists (reverse cur), []. split_and!; [| |done|by left].
  - intros Hrev. apply Hne. by rewrite <- (reverse_involutive cur), Hrev.
  - by apply Forall_reverse.
Qed.

Lemma findall_numbers_go_tokens (s : str) (st : number_state) :
  number_state_ok st →
  Forall (λ t, number_token t ∧ infix_of t (pending st ++ s)) (findall_numbers_go st s).
Proof.
  revert st. induction s as [|c s IH]; intros st Hst.
  - destruct st as [|cur|cur]; simpl; [constructor|..];
      (repeat constructor; [|rewrite app_nil_r; apply infix_of_refl]).
    + by apply number_token_ininteger.
    + by apply number_token_infraction.
  - assert (∀ st', number_state_ok st' → pending st' ++ s = pending st ++ c :: s →
              Forall (λ t, number_token t ∧ infix_of t (pending st ++ c :: s))
                     (findall_numbers_go st' s)) as Hkeep.
    { intros st' Hok Heq. rewrite <- Heq. by apply IH. }
    assert (Forall (λ t, number_token t ∧ infix_of t (pending st ++ c :: s))
                   (findall_numbers_go Outside s)) as Hout.
    { eapply Forall_impl; [apply (IH Outside I)|]. intros t [? Ht]. split; [done|].
      simpl in Ht. apply infix_of_app_l. by apply (infix_of_app_l t s [c]). }
    destruct st as [|cur|cur]; simpl.
    + destruct (Char.isdigit c) eqn:Hc; [|done].
      apply Hkeep; [|done]. split; [done | by repeat constructor].
    + destruct Hst as [Hne Hall].
      destruct (Char.isdigit c) eqn:Hc; [|destruct (Char.code c =? 46)%N eqn:Hdot].
      * apply Hkeep; [split; [done | by constructor]|].
        simpl. by rewrite reverse_cons, <- app_assoc.
      * apply N.eqb_eq, ascii_of_code in Hdot. subst c.
        apply Hkeep; [|simpl; by rewrite reverse_cons, <- app_assoc].
        exists (reverse cur), []. split_and!; [| |done|].
        -- intros Hrev. apply Hne. by rewrite <- (reverse_involutive cur), Hrev.
        -- by apply Forall_reverse.
        -- by rewrite reverse_cons.
      * constructor; [|done]. split; [by apply number_token_ininteger|].
        exists [], (c :: s). done.
    + destruct (Char.isdigit c) eqn:Hc.
      * apply Hkeep; [|simpl; by rewrite reverse_cons, <- app_assoc].
        destruct Hst as (ds & fs & Hne & Hds & Hfs & Hrev).
        exists ds, (fs ++ [c]). split_and!; [done..| |].
        -- apply Forall_app. split; [done | by repeat constructor].
        -- rewrite reverse_cons, Hrev. by rewrite <- !app_assoc.
      * constructor; [|done]. split; [by apply number_token_infraction|].
        exists [], (c :: s). done.
Qed.

Lemma findall_numbers_go_inside (s : str) (st : number_state) :
  st ≠ Outside → findall_numbers_go st s ≠ [].
Proof.
  revert st. induction s as [|c s IH]; intros st Hst.
  - by destruct st.
  - destruct st as [|cur|cur]; [done|..]; simpl.
    + destruct (Char.isdigit c); [by apply IH|].
      destruct (Char.code c =? 46)%N; [by apply IH | done].
    + destruct (Char.isdigit c); [by apply IH | done].
Qed.

Lemma findall_numbers_nil (s : str) :
  findall_numbers s = [] ↔ Forall (λ c, Char.isdigit c = false) s.
Proof.
  unfold findall_numbers. induction s as [|c s IH]; simpl.
  - split; [constructor | done].
  - destruct (Char.isdigit c) eqn:Hc.
    + split.
      * intros H. by apply findall_numbers_go_inside in H.
      * intros H. apply Forall_cons in H as [H _]. congruence.
    + rewrite IH, Forall_cons. tauto.
Qed.

(** X6.  The numeric tokens of a sentence are contiguous parts of it, each
    made of digits, then possibly a dot and further digits; and there is no
    token exactly when the sentence holds no digit. *)
Theorem X6_numeric_tokens (s : str) :
  Forall (λ t, number_token t ∧ infix_of t s) (findall_numbers s)
  ∧ (findall_numbers s = [] ↔ Forall (λ c, Char.isdigit c = false) s).
Proof.
  split; [|apply findall_numbers_nil].
  apply (findall_numbers_go_tokens s Outside I).
Qed.

End Text.

(** * Further properties of the concept filter and of the gap analysis *)

Section FilterProperties.
Import ConceptDetector ConceptSpec TextSpec.

Lemma size_list_to_set_le (l : list str) : size (list_to_set l : gset str) ≤ length l.
Proof.
  induction l as [|x l IH].
  - change (size (∅ : gset str) ≤ 0). by rewrite size_empty.
  - change (size ({[x]} ∪ list_to_set l : gset str) ≤ S (length l)).
    rewrite size_union_alt, size_singleton.
    assert (size (list_to_set l ∖ {[x]} : gset str) ≤ size (list_to_set l : gset str))
      by (apply subseteq_size, subseteq_difference_l; reflexivity).
    lia.
Qed.

Lemma length_omap_le {A B} (f : A → option B) (l : list A) :
  length (omap f l) ≤ length l.
Proof. induction l as [|x l IH]; csimpl; [done|]. destruct (f x); simpl; lia. Qed.

Lemma filter_concepts_size (concepts : gset str) :
  size (_filter_concepts concepts) ≤ size concepts.
Proof.
  rewrite filter_concepts_omap. unfold set_omap.
  etrans; [apply size_list_to_set_le|]. etrans; [apply length_omap_le|]. done.
Qed.

Lemma clean_concept_infix (concept d : str) :
  clean_concept concept = Some d → infix_of d concept.
Proof.
  intros (_ & -> & _)%clean_concept_Some.
  eapply infix_of_trans; [|apply strip_infix].
  destruct (strip_numbering_suffix (Str.strip concept)) as [pre Hpre].
  exists pre, []. by rewrite app_nil_r.
Qed.

Lemma passes_checks (d : str) :
  passes d = true →
  search_alpha3 d = true
  ∧ is_noise (Str.lower d) = false
  ∧ (length d < 6 → search_digit d = true ∨ search_capitalized d = true).
Proof.
  unfold passes. rewrite !andb_true_iff, !negb_true_iff.
  intros [[[[Hshort Hnoise] _] _] Halpha]. split_and!; [done..|].
  intros Hlen. apply Nat.ltb_lt in Hlen. rewrite Hlen in Hshort. simpl in Hshort.
  destruct (search_digit d); [by left|]. destruct (search_capitalized d); [by right|done].
Qed.

(** X7.  The filter invents nothing and lets no noise through: every concept
    it returns is a contiguous part of one of the given concepts, has no
    whitespace at either end, holds a run of three letters and none of the
    noise markers, and is at least 6 characters long unless it holds a digit
    or a capitalised word; and the filtered set is no larger than the given
    one. *)
Theorem X7_filter_output (concepts : gset str) (d : str) :
  d ∈ _filter_concepts concepts →
  (∃ c, c ∈ concepts ∧ infix_of d c)
  ∧ trimmed d
  ∧ search_alpha3 d = true
  ∧ is_noise (Str.lower d) = false
  ∧ (length d < 6 → search_digit d = true ∨ search_capitalized d = true)
  ∧ size (_filter_concepts concepts) ≤ size concepts.
Proof.
  intros (c & Hc & Hclean)%elem_of_filter_concepts.
  destruct (clean_concept_image c d Hclean) as [Htrim Hpass].
  destruct (passes_checks d Hpass) as (Halpha & Hnoise & Hshort).
  split_and!; [|done..|apply filter_concepts_size].
  exists c. split; [done | by apply clean_concept_infix].
Qed.

Lemma X7_witness :
  py "21 data sources" ∈ _filter_concepts {[ py "- 21 data sources" ]}
  ∧ (∃ c, c ∈ ({[ py "- 21 data sources" ]} : gset str)
          ∧ infix_of (py "21 data sources") c)
  ∧ trimmed (py "21 data sources")
  ∧ search_alpha3 (py "21 data sources") = true
  ∧ is_noise (Str.lower (py "21 data sources")) = false
  ∧ (length (py "21 data sources") < 6 →
     search_digit (py "21 data sources") = true
     ∨ search_capitalized (py "21 data sources") = true)
  ∧ size (_filter_concepts {[ py "- 21 data sources" ]})
    ≤ size ({[ py "- 21 data sources" ]} : gset str).
Proof.
  assert (py "21 data sources" ∈ _filter_concepts {[ py "- 21 data sources" ]}) as Hin.
  { apply elem_of_filter_concepts. exists (py "- 21 data sources").
    split; [by apply elem_of_singleton | vm_compute; reflexivity]. }
  split; [exact Hin|].
  apply (X7_filter_output _ _ Hin).
Defined.

Lemma filter_concepts_union (concepts1 concepts2 : gset str) :
  _filter_concepts (concepts1 ∪ concepts2)
  = _filter_concepts concepts1 ∪ _filter_concepts concepts2.
Proof.
  apply set_eq. intros d. rewrite elem_of_union, !elem_of_filter_concepts. split.
  - intros (c & [Hc|Hc]%elem_of_union & Hd); [left|right]; by exists c.
  - intros [(c & Hc & Hd)|(c & Hc & Hd)]; exists c; (split; [|done]);
      apply elem_of_union; [by left | by right].
Qed.

Lemma filter_concepts_mono (concepts1 concepts2 : gset str) :
  concepts1 ⊆ concepts2 → _filter_concepts concepts1 ⊆ _filter_concepts concepts2.
Proof.
  intros Hsub d. rewrite !elem_of_filter_concepts.
  intros (c & Hc & Hd). exists c. split; [by apply Hsub | done].
Qed.

End FilterProperties.

Section MissingProperties.
Import ConceptDetector ConceptSpec.

(** X8.  Nothing is missing from notes that hold every concept of the
    lecture: when each filtered lecture concept is among the filtered note
    concepts the result is empty, whatever the similarities and the
    iteration order; in particular a set misses nothing of itself. *)
Theorem X8_nothing_missing `{ES : EmbeddingService} (to_list : gset str → list str)
    (lecture_concepts notes_concepts : gset str) :
  _filter_concepts lecture_concepts ⊆ _filter_concepts notes_concepts →
  find_missing_concepts to_list lecture_concepts notes_concepts = Some []
  ∧ find_missing_concepts to_list lecture_concepts lecture_concepts = Some [].
Proof.
  intros Hsub. unfold find_missing_concepts. split.
  - rewrite decide_True; [done|]. apply set_eq. intros c.
    rewrite elem_of_difference, elem_of_empty. split; [|done].
    intros [Hc Hnot]. by apply Hnot, Hsub.
  - rewrite decide_True; [done|]. by apply difference_diag_L.
Qed.

Lemma X8_witness :
  _filter_concepts Scenario.notes_set ⊆ _filter_concepts Scenario.lecture_set
  ∧ find_missing_concepts (ES := length_service) elements
      Scenario.notes_set Scenario.lecture_set = Some []
  ∧ find_missing_concepts (ES := length_service) elements
      Scenario.notes_set Scenario.notes_set = Some [].
Proof.
  assert (_filter_concepts Scenario.notes_set ⊆ _filter_concepts Scenario.lecture_set)
    as Hsub.
  { apply filter_concepts_mono. unfold Scenario.notes_set, Scenario.lecture_set.
    apply union_subseteq_l. }
  split; [exact Hsub|].
  apply (X8_nothing_missing (ES := length_service) elements _ _ Hsub).
Defined.

(** X9.  No concept is reported twice, and none that the notes hold after
    filtering. *)
Theorem X9_missing_distinct `{ES : EmbeddingService} (to_list : gset str → list str)
    (lecture_concepts notes_concepts : gset str) (result : list str) :
  (∀ X, to_list X ≡ₚ elements X) →
  find_missing_concepts to_list lecture_concepts notes_concepts = Some result →
  NoDup result ∧ ∀ c, c ∈ result → c ∉ _filter_concepts notes_concepts.
Proof.
  intros Hperm. rewrite (find_missing_concepts_eq to_list _ _ Hperm). intros [= <-].
  set (M := _filter_concepts lecture_concepts ∖ _filter_concepts notes_concepts).
  assert (NoDup (to_list M)) as Hnodup by (rewrite Hperm; apply NoDup_elements).
  assert (∀ c, c ∈ to_list M → c ∉ _filter_concepts notes_concepts) as Hnot.
  { intros c Hc. apply (elem_of_to_list to_list M c Hperm) in Hc.
    by apply elem_of_difference in Hc as [_ ?]. }
  split.
  - eapply sublist_NoDup; [|apply sublist_take]. case_decide; [done|].
    by apply NoDup_filter.
  - intros c Hc. eapply elem_of_sublist in Hc; [|apply sublist_take].
    case_decide; [by apply Hnot|].
    apply list_elem_of_filter in Hc as [_ Hc]. by apply Hnot.
Qed.

Lemma X9_witness :
  (∀ X : gset str, elements X ≡ₚ elements X)
  ∧ find_missing_concepts (ES := length_service) elements
      Scenario.lecture_set Scenario.notes_set
    = Some [py "data from 21 administrative sources including child protective services"]
  ∧ NoDup [py "data from 21 administrative sources including child protective services"]
  ∧ ∀ c, c ∈ [py "data from 21 administrative sources including child protective services"]
         → c ∉ _filter_concepts Scenario.notes_set.
Proof.
  split; [reflexivity|].
  assert (find_missing_concepts (ES := length_service) elements
            Scenario.lecture_set Scenario.notes_set
          = Some [py "data from 21 administrative sources including child protective services"])
    as Hres by (vm_compute; reflexivity).
  split; [exact Hres|].
  apply (X9_missing_distinct (ES := length_service) elements
           Scenario.lecture_set Scenario.notes_set _ (λ X, reflexivity _) Hres).
Defined.

End MissingProperties.

(** * Ranking concepts *)

Section Ranking.
Import ConceptRanking.

Lemma key_ltb_true (a b : nat * nat) :
  key_ltb a b = true ↔ a.1 < b.1 ∨ (a.1 = b.1 ∧ a.2 < b.2).
Proof.
  unfold key_ltb. rewrite orb_true_iff, andb_true_iff, !Nat.ltb_lt, Nat.eqb_eq. tauto.
Qed.

Lemma key_ltb_false (a b : nat * nat) :
  key_ltb a b = false ↔ b.1 < a.1 ∨ (a.1 = b.1 ∧ b.2 ≤ a.2).
Proof. rewrite <- not_true_iff_false, key_ltb_true. lia. Qed.

Lemma ranks_before_trans (a b c : str) :
  ranks_before a b → ranks_before b c → ranks_before a c.
Proof. unfold ranks_before. rewrite !key_ltb_false. lia. Qed.

Lemma ranks_before_total (a b : str) : ranks_before a b ∨ ranks_before b a.
Proof. unfold ranks_before. rewrite !key_ltb_false. lia. Qed.

Lemma insert_desc_perm (x : str) (l : list str) : insert_desc x l ≡ₚ x :: l.
Proof.
  induction l as [|y l IH]; simpl; [done|].
  destruct (key_ltb (key x) (key y)); [|done].
  rewrite IH. apply Permutation_swap.
Qed.

Lemma sorted_desc_perm (l : list str) : sorted_desc l ≡ₚ l.
Proof.
  induction l as [|x l IH]; simpl; [done|].
  rewrite insert_desc_perm. by rewrite IH.
Qed.

Lemma insert_desc_sorted (x : str) (l : list str) :
  StronglySorted ranks_before l → StronglySorted ranks_before (insert_desc x l).
Proof.
  induction 1 as [|y l Hsorted IH Hall]; simpl; [repeat constructor|].
  destruct (key_ltb (key x) (key y)) eqn:Hlt.
  - constructor; [done|]. rewrite insert_desc_perm. constructor; [|done].
    unfold ranks_before. apply key_ltb_true in Hlt. apply key_ltb_false. lia.
  - constructor; [by constructor|]. constructor; [done|].
    eapply Forall_impl; [exact Hall|]. intros z. by apply ranks_before_trans.
Qed.

Lemma sorted_desc_sorted (l : list str) : StronglySorted ranks_before (sorted_desc l).
Proof. induction l as [|x l IH]; simpl; [constructor | by apply insert_desc_sorted]. Qed.

(** The sort is stable: concepts of equal key keep their order. *)
Lemma insert_desc_stable (k : nat * nat) (x : str) (l : list str) :
  filter (λ c, key c = k) (insert_desc x l) = filter (λ c, key c = k) (x :: l).
Proof.
  induction l as [|y l IH]; simpl; [done|].
  destruct (key_ltb (key x) (key y)) eqn:Hlt; [|done].
  rewrite (filter_cons _ y), IH, !filter_cons.
  apply key_ltb_true in Hlt.
  destruct (decide (key y = k)) as [Hy|Hy]; [|done].
  destruct (decide (key x = k)) as [Hx|Hx]; [|done].
  exfalso. rewrite Hx, Hy in Hlt. lia.
Qed.

Lemma sorted_desc_stable (k : nat * nat) (l : list str) :
  filter (λ c, key c = k) (sorted_desc l) = filter (λ c, key c = k) l.
Proof.
  induction l as [|x l IH]; simpl; [done|].
  rewrite insert_desc_stable, !filter_cons, IH. done.
Qed.

Lemma score_le (c : str) : score c ≤ 6.
Proof. unfold score. repeat case_match; lia. Qed.

Lemma slice_to_prefix (limit : Z) (l : list str) : slice_to limit l `prefix_of` l.
Proof. unfold slice_to. case_match; apply prefix_take. Qed.

End Ranking.

Section RankingProperties.
Import ConceptRanking.

Lemma select_priority_concepts_prefix (to_list : gset str → list str)
    (concepts : gset str) (limit : Z) :
  (∀ X, to_list X ≡ₚ elements X) →
  ∃ rest,
    select_priority_concepts to_list concepts limit ++ rest ≡ₚ elements concepts
    ∧ StronglySorted ranks_before (select_priority_concepts to_list concepts limit ++ rest).
Proof.
  intros Hperm. unfold select_priority_concepts. case_decide as Hempty.
  - exists []. rewrite Hempty, elements_empty. split; [done | constructor].
  - destruct (slice_to_prefix limit (sorted_desc (to_list concepts))) as [rest Hrest].
    exists rest. rewrite <- Hrest. split; [|apply sorted_desc_sorted].
    by rewrite sorted_desc_perm.
Qed.

Lemma select_priority_concepts_stable (to_list : gset str → list str)
    (concepts : gset str) (limit : Z) (k : nat * nat) :
  filter (λ c, key c = k) (select_priority_concepts to_list concepts limit)
  `prefix_of` filter (λ c, key c = k) (to_list concepts).
Proof.
  unfold select_priority_concepts. case_decide; [apply prefix_nil|].
  destruct (slice_to_prefix limit (sorted_desc (to_list concepts))) as [rest Hrest].
  rewrite <- (sorted_desc_stable k (to_list concepts)).
  rewrite Hrest at 2. rewrite filter_app. by eexists.
Qed.

(** X10.  [select_priority_concepts] returns the best ranked concepts of the
    set, best first: the result has no duplicates and holds concepts of the
    set only; along it the rank (score, then length) never increases; every
    concept of the set left out ranks no higher than any concept returned;
    concepts of equal rank come in the order in which the set is iterated;
    and for a limit that is not negative the result holds [limit] concepts,
    or all of them when the set has fewer.  The score of a concept is at most
    6. *)
Theorem X10_priority_concepts (to_list : gset str → list str)
    (concepts : gset str) (limit : Z) :
  (∀ X, to_list X ≡ₚ elements X) →
  let result := select_priority_concepts to_list concepts limit in
  NoDup result
  ∧ (∀ c, c ∈ result → c ∈ concepts ∧ score c ≤ 6)
  ∧ StronglySorted ranks_before result
  ∧ (∀ c c', c ∈ result → c' ∈ concepts → c' ∉ result → ranks_before c c')
  ∧ (∀ k, filter (λ c, key c = k) result `prefix_of` filter (λ c, key c = k) (to_list concepts))
  ∧ ((0 ≤ limit)%Z → length result = Nat.min (Z.to_nat limit) (size concepts)).
Proof.
  intros Hperm result.
  destruct (select_priority_concepts_prefix to_list concepts limit Hperm)
    as (rest & Hrest & Hsorted).
  fold result in Hrest, Hsorted.
  assert (NoDup (result ++ rest)) as Hnodup by (rewrite Hrest; apply NoDup_elements).
  assert (∀ c, c ∈ result ++ rest ↔ c ∈ concepts) as Hin
    by (intros c; by rewrite Hrest, elem_of_elements).
  split_and!.
  - by apply NoDup_app in Hnodup as [? _].
  - intros c Hc. split; [|apply score_le]. apply Hin, elem_of_app. by left.
  - by apply StronglySorted_app_1_l in Hsorted.
  - intros c c' Hc Hc' Hout. apply Hin, elem_of_app in Hc' as [?|Hc']; [done|].
    by eapply StronglySorted_app_1_elem_of.
  - intros k. apply select_priority_concepts_stable.
  - intros Hlimit. unfold result, select_priority_concepts. case_decide as Hempty.
    + rewrite Hempty, size_empty. simpl. lia.
    + unfold slice_to. rewrite (proj2 (Z.leb_le 0 limit) Hlimit), length_take.
      by rewrite sorted_desc_perm, Hperm.
Qed.

Lemma X10_witness :
  (∀ X : gset str, elements X ≡ₚ elements X)
  ∧ NoDup (select_priority_concepts elements Scenario.lecture_set 1)
  ∧ (∀ c, c ∈ select_priority_concepts elements Scenario.lecture_set 1 →
          c ∈ Scenario.lecture_set ∧ score c ≤ 6)
  ∧ StronglySorted ranks_before (select_priority_concepts elements Scenario.lecture_set 1)
  ∧ (∀ c c', c ∈ select_priority_concepts elements Scenario.lecture_set 1 →
             c' ∈ Scenario.lecture_set →
             c' ∉ select_priority_concepts elements Scenario.lecture_set 1 →
             ranks_before c c')
  ∧ (∀ k, filter (λ c, key c = k) (select_priority_concepts elements Scenario.lecture_set 1)
          `prefix_of` filter (λ c, key c = k) (elements Scenario.lecture_set))
  ∧ ((0 ≤ 1)%Z →
     length (select_priority_concepts elements Scenario.lecture_set 1)
     = Nat.min (Z.to_nat 1) (size Scenario.lecture_set)).
Proof.
  split; [reflexivity|].
  apply (X10_priority_concepts elements Scenario.lecture_set 1). reflexivity.
Defined.

End RankingProperties.

(** * Extraction over slides *)

Section Extraction.
Import ConceptDetector ConceptExtraction.
Context `{ES : EmbeddingService}.
Variable use_llm : bool.
Variable _extract_with_llm : str → gset str.
Variable _extract_from_text_fallback : str → gset str.

Abbreviation step := (extract_step use_llm _extract_with_llm _extract_from_text_fallback).

Lemma extract_step_union (slide_data : list Slide) (acc : gset str) (i : nat) :
  step slide_data acc i = acc ∪ step slide_data ∅ i.
Proof.
  unfold extract_step. case_bool_decide.
  - by rewrite (right_id_L ∅ (∪)).
  - by rewrite (left_id_L ∅ (∪)).
Qed.

Lemma extract_fold_union (slide_data : list Slide) (starts : list nat) (acc : gset str) :
  fold_left (step slide_data) starts acc
  = acc ∪ fold_left (step slide_data) starts ∅.
Proof.
  revert acc. induction starts as [|i starts IH]; intros acc; simpl.
  - by rewrite (right_id_L ∅ (∪)).
  - rewrite IH, (IH (step slide_data ∅ i)), (extract_step_union slide_data acc).
    by rewrite (assoc_L (∪)).
Qed.

Lemma extract_fold_ext (slides slides' : list Slide) (starts starts' : list nat) :
  Forall2 (λ i i', chunk_at slides i = chunk_at slides' i') starts starts' →
  fold_left (step slides) starts ∅ = fold_left (step slides') starts' ∅.
Proof.
  generalize (∅ : gset str).
  intros acc H. revert acc. induction H as [|i i' l l' Hi _ IH]; intros acc; [done|].
  simpl. rewrite IH. f_equal. unfold extract_step. by rewrite Hi.
Qed.

Lemma half_of_even_succ (m : nat) : (2 * m + 1) / 2 = m.
Proof.
  replace (2 * m + 1) with (m * 2 + 1) by lia.
  rewrite Nat.div_add_l by done. change (1 / 2) with 0. lia.
Qed.

Lemma doubled_seq_shift (m count start : nat) :
  map (λ k, k * 2) (seq (m + start) count)
  = map (λ i, 2 * m + i) (map (λ k, k * 2) (seq start count)).
Proof.
  revert start. induction count as [|count IH]; intros start; [done|].
  cbn [seq map]. f_equal; [lia|]. rewrite <- IH. f_equal. f_equal. lia.
Qed.

Lemma chunk_starts_add (m n : nat) :
  chunk_starts (2 * m + n)
  = chunk_starts (2 * m) ++ map (λ i, 2 * m + i) (chunk_starts n).
Proof.
  unfold chunk_starts, chunk_size. change (2 - 1) with 1.
  replace ((2 * m + n + 1) / 2) with (m + (n + 1) / 2).
  2:{ replace (2 * m + n + 1) with (m * 2 + (n + 1)) by lia.
      by rewrite Nat.div_add_l. }
  rewrite half_of_even_succ, seq_app, map_app. f_equal.
  rewrite <- (doubled_seq_shift m _ 0). by rewrite Nat.add_0_r.
Qed.

Lemma chunk_at_app_l (slides1 slides2 : list Slide) (i : nat) :
  i + chunk_size ≤ length slides1 →
  chunk_at (slides1 ++ slides2) i = chunk_at slides1 i.
Proof.
  intros Hi. unfold chunk_at. rewrite drop_app_le by lia.
  rewrite take_app_le; [done|]. rewrite length_drop. lia.
Qed.

Lemma chunk_at_app_r (slides1 slides2 : list Slide) (i : nat) :
  chunk_at (slides1 ++ slides2) (length slides1 + i) = chunk_at slides2 i.
Proof. unfold chunk_at. by rewrite drop_app_add. Qed.


Lemma join_whitespace (sep : str) (parts : list str) :
  Forall (λ c, Char.isspace c = true) sep →
  Forall (λ p, Forall (λ c, Char.isspace c = true) p) parts →
  Forall (λ c, Char.isspace c = true) (Str.join sep parts).
Proof.
  intros Hsep. induction 1 as [|p parts Hp Hparts IH]; [constructor|].
  destruct parts as [|q parts]; [done|].
  change (Str.join sep (p :: q :: parts)) with (p ++ sep ++ Str.join sep (q :: parts)).
  rewrite !Forall_app. by split_and!.
Qed.

Lemma chunk_text_blank (chunk : list Slide) :
  Forall (λ slide : Slide, Forall (λ c, Char.isspace c = true) (text slide)) chunk →
  Str.strip (chunk_text chunk) = [].
Proof.
  intros Hblank. apply strip_whitespace, join_whitespace; [by repeat constructor|].
  apply Forall_fmap. apply Forall_forall. intros slide [_ Hin]%list_elem_of_filter.
  rewrite Forall_forall in Hblank. by apply Hblank.
Qed.

(** X11.  Slides without text yield no concept and no extraction call: when
    the text of every slide is empty or whitespace, [extract_concepts]
    returns the empty set, whatever the extraction strategy would answer. *)
Theorem X11_extract_blank (slide_data : list Slide) :
  Forall (λ slide : Slide, Forall (λ c, Char.isspace c = true) (text slide)) slide_data →
  extract_concepts use_llm _extract_with_llm _extract_from_text_fallback slide_data = ∅.
Proof.
  intros Hblank. unfold extract_concepts.
  assert (∀ starts, fold_left (step slide_data) starts ∅ = ∅) as ->; [|done].
  induction starts as [|i starts IH]; [done|]. simpl.
  assert (step slide_data ∅ i = ∅) as ->; [|done].
  unfold extract_step. rewrite chunk_text_blank; [done|].
  unfold chunk_at. by apply Forall_take, Forall_drop.
Qed.

End Extraction.

Section ExtractionProperties.
Import ConceptDetector ConceptExtraction.

Lemma X11_witness :
  Forall (λ slide : Slide (H := length_service),
            Forall (λ c, Char.isspace c = true) (text slide))
    [Scenario.slide_of (py "  "); Scenario.slide_of (py ""); Scenario.slide_of (py " ")]
  ∧ extract_concepts (ES := length_service) false (λ s, {[ s ]}) (λ s, {[ s ]})
      [Scenario.slide_of (py "  "); Scenario.slide_of (py ""); Scenario.slide_of (py " ")]
    = ∅.
Proof.
  assert (Forall (λ slide : Slide (H := length_service),
                    Forall (λ c, Char.isspace c = true) (text slide))
            [Scenario.slide_of (py "  "); Scenario.slide_of (py "");
             Scenario.slide_of (py " ")]) as Hblank by (repeat constructor).
  split; [exact Hblank|].
  apply (X11_extract_blank (ES := length_service) false _ _ _ Hblank).
Defined.


End ExtractionProperties.

(** * The similarity matrix *)

Section Matrix.
Import SimilarityMatrix.
Context `{ES : EmbeddingService}.

Lemma fill_row_prefix (i : nat) (e : Emb) (m : matrix) (row : list Q)
    (ns rest : list Emb) :
  m !! i = Some row → length row = length (ns ++ rest) →
  fold_left (λ st p,
               similarity_matrix ← st;
               let '(j, note_embedding) := p in
               set_entry similarity_matrix i j (similarity e note_embedding))
            (enumerate ns) (Some m)
  = Some (<[i := map (similarity e) ns ++ drop (length ns) row]> m).
Proof.
  intros Hrow. revert rest. induction ns as [|x ns IH] using rev_ind; intros rest Hlen.
  - simpl. by rewrite drop_0, list_insert_id.
  - rewrite enumerate_snoc, fold_left_app, (IH ([x] ++ rest))
      by (by rewrite Hlen, <- app_assoc).
    cbn [fold_left mbind option_bind]. unfold set_entry.
    assert (i < length m) as Hi by (by eapply lookup_lt_Some).
    rewrite list_lookup_insert_eq by done. cbn [mbind option_bind].
    rewrite !length_app in Hlen. simpl in Hlen.
    rewrite decide_True
      by (rewrite length_app, length_map, length_drop; lia).
    rewrite list_insert_insert_eq. do 2 f_equal.
    rewrite insert_app_r_alt by (rewrite length_map; lia).
    rewrite length_map, Nat.sub_diag, map_app, <- app_assoc. f_equal.
    rewrite length_app. simpl.
    destruct (drop (length ns) row) as [|y tail] eqn:Hdrop.
    + apply (f_equal length) in Hdrop. rewrite length_drop in Hdrop. simpl in Hdrop. lia.
    + simpl. f_equal. by rewrite <- drop_drop, Hdrop.
Qed.

Lemma fill_row_full (i : nat) (e : Emb) (m : matrix) (row : list Q) (ns : list Emb) :
  m !! i = Some row → length row = length ns →
  fill_row i e ns (Some m) = Some (<[i := map (similarity e) ns]> m).
Proof.
  intros Hrow Hlen. unfold fill_row.
  rewrite (fill_row_prefix i e m row ns []) by (by rewrite ?app_nil_r).
  by rewrite <- Hlen, drop_all, app_nil_r.
Qed.

Lemma similarity_table_row (slide : Slide) (notes_chunks : list str) :
  map (similarity (embedding slide)) (embed_batch notes_chunks)
  = map (λ chunk, similarity (embedding slide) (encode chunk)) notes_chunks.
Proof. unfold embed_batch. by rewrite map_map. Qed.

Lemma similarity_table_length (slide_data : list Slide) (notes_chunks : list str) :
  length (similarity_table slide_data notes_chunks) = length slide_data.
Proof. apply length_map. Qed.

Lemma similarity_table_snoc (slide_data : list Slide) (slide : Slide)
    (notes_chunks : list str) :
  similarity_table (slide_data ++ [slide]) notes_chunks
  = similarity_table slide_data notes_chunks
    ++ [map (λ chunk, similarity (embedding slide) (encode chunk)) notes_chunks].
Proof. apply map_app. Qed.

Lemma fill_matrix_prefix (notes_chunks : list str) (ss rest : list Slide) :
  fold_left (λ st p,
               let '(i, slide) := p in
               fill_row i (embedding slide) (embed_batch notes_chunks) st)
            (enumerate ss)
            (Some (zeros (length (ss ++ rest)) (length notes_chunks)))
  = Some (similarity_table ss notes_chunks
            ++ zeros (length rest) (length notes_chunks)).
Proof.
  revert rest. induction ss as [|x ss IH] using rev_ind; intros rest.
  - done.
  - rewrite enumerate_snoc, fold_left_app.
    rewrite <- app_assoc, IH. cbn [fold_left app length zeros replicate].
    rewrite (fill_row_full _ _ _ (replicate (length notes_chunks) 0%Q)).
    + f_equal. rewrite similarity_table_row.
      rewrite insert_app_r_alt by (rewrite similarity_table_length; lia).
      rewrite similarity_table_length, Nat.sub_diag, similarity_table_snoc.
      by rewrite <- app_assoc.
    + rewrite lookup_app_r by (rewrite similarity_table_length; lia).
      by rewrite similarity_table_length, Nat.sub_diag.
    + unfold embed_batch. by rewrite length_replicate, length_map.
Qed.

End Matrix.

Section MatrixProperties.
Import SimilarityMatrix.

(** X13.  [compute_similarity_matrix] never indexes out of range, and for a
    stored deck it returns the matrix of shape (slides, note chunks) whose
    entry [(i, j)] is the similarity of slide [i] and note chunk [j]; for an
    unknown or empty deck it returns the empty array. *)
Theorem X13_similarity_matrix `{ES : EmbeddingService}
    (get_slides : str → option (list Slide)) (slide_id : str) (notes_chunks : list str) :
  match get_slides slide_id with
  | None | Some [] => compute_similarity_matrix get_slides slide_id notes_chunks = Some []
  | Some slide_data =>
      ∃ m,
        compute_similarity_matrix get_slides slide_id notes_chunks = Some m
        ∧ length m = length slide_data
        ∧ Forall (λ row, length row = length notes_chunks) m
        ∧ ∀ i j slide chunk,
            slide_data !! i = Some slide → notes_chunks !! j = Some chunk →
            m !! i ≫= (λ row, row !! j)
            = Some (similarity (embedding slide) (encode chunk))
  end.
Proof.
  unfold compute_similarity_matrix.
  destruct (get_slides slide_id) as [[|slide0 slides]|]; [done| |done].
  set (slide_data := slide0 :: slides).
  exists (similarity_table slide_data notes_chunks).
  pose proof (fill_matrix_prefix notes_chunks slide_data []) as Hfill.
  rewrite !app_nil_r in Hfill. split_and!.
  - exact Hfill.
  - apply similarity_table_length.
  - apply (Forall_fmap _ _ slide_data), Forall_forall. intros slide _.
    simpl. apply length_map.
  - intros i j slide chunk Hi Hj. unfold similarity_table.
    rewrite (list_lookup_fmap _ slide_data i), Hi. simpl.
    by rewrite (list_lookup_fmap _ notes_chunks j), Hj.
Qed.

End MatrixProperties.

(** * The request handlers *)

Section Handlers.
Import AlignmentService MisconceptionDetector DetectSpec Main.
Context `{ES : EmbeddingService}.
Variable get_slides : str → option (list Slide).
Variable use_llm : bool.
Variable chat_completion : str → str → str → option str.
Variable Question : Type.
Variable generate_single : list Slide → option (list Question) → Question.
Variable str_of_exn : exn → str.

Lemma find_covered_slides_lt (slide_id : str) (notes_embedding : Emb)
    (slide0 : Slide) (slides : list Slide) :
  get_slides slide_id = Some (slide0 :: slides) →
  find_covered_slides get_slides slide_id notes_embedding < length (slide0 :: slides).
Proof.
  intros Hslides. unfold find_covered_slides. rewrite Hslides.
  pose proof (covered_index_range
    (map (λ sl, similarity notes_embedding (embedding sl)) (slide0 :: slides))) as H.
  simpl in H. simpl. by rewrite length_map in H.
Qed.

Lemma covered_prefix_length (slide_data : list Slide) (covered : nat) :
  covered < length slide_data →
  length (covered_prefix slide_data covered) = covered + 1.
Proof. intros Hlt. unfold covered_prefix. rewrite length_take. lia. Qed.


End Handlers.

(** * The matcher of regular expressions *)

Section RegexEngine.
Import Regex RegexSpec TextSpec.

Lemma extends_refl (st : state) : extends st st.
Proof. split; [by exists []|]. exists []. by split; [|constructor]. Qed.

Lemma extends_trans (st1 st2 st3 : state) :
  extends st1 st2 → extends st2 st3 → extends st1 st3.
Proof.
  intros [[pre1 H1] (new1 & Hc1 & Hn1)] [[pre2 H2] (new2 & Hc2 & Hn2)]. split.
  - exists (pre1 ++ pre2). by rewrite H1, H2, <- app_assoc.
  - exists (new2 ++ new1). split; [by rewrite Hc2, Hc1, <- app_assoc|].
    apply Forall_app. split; [|done].
    eapply Forall_impl; [exact Hn2|]. intros c Hc. rewrite H1.
    by apply infix_of_app_l.
Qed.

Lemma consumed_prefix (st st' : state) (pre : str) :
  rest st = pre ++ rest st' → consumed st st' = pre.
Proof.
  intros H. unfold consumed. rewrite H, length_app.
  replace (length pre + length (rest st') - length (rest st')) with (length pre) by lia.
  by rewrite take_app_length.
Qed.

Lemma rep_sound m lo hi : sound m → ∀ fuel count, sound (rep m lo hi count fuel).
Proof.
  intros Hm fuel. induction fuel as [|fuel IH]; intros count k st res; simpl; [done|].
  destruct (if within count hi then _ else None) as [res'|] eqn:Hmore.
  - intros [= ->]. destruct (within count hi); [|done].
    apply Hm in Hmore as (st1 & Hext & Hk).
    destruct (length (rest st1) <? length (rest st)); [|done].
    apply IH in Hk as (st2 & Hext2 & Hk). exists st2. split; [|done].
    by eapply extends_trans.
  - destruct (lo <=? count); [|done]. intros Hk. exists st. split; [apply extends_refl|done].
Qed.

Lemma exec_sound (r : regex) : sound (exec r).
Proof.
  induction r as [|p|r1 IH1 r2 IH2|r1 IH1 r2 IH2|r IH lo hi|i r IH|].
  1-4,6-7: intros k st res; simpl.
  - intros Hk. exists st. split; [apply extends_refl|done].
  - destruct (rest st) as [|c s'] eqn:Hrest; [done|]. destruct (p c); [|done].
    intros Hk. eexists. split; [|exact Hk]. split; simpl.
    + by exists [c].
    + exists []. by split; [|constructor].
  - intros (st1 & Hext1 & (st2 & Hext2 & Hk)%IH2)%IH1. exists st2.
    split; [by eapply extends_trans|done].
  - destruct (exec r1 k st) as [res'|] eqn:H1.
    + intros [= ->]. by apply IH1.
    + apply IH2.
  - intros (st1 & Hext & Hk)%IH. eexists. split; [|exact Hk].
    destruct Hext as [[pre Hpre] (new & Hc & Hn)]. split; simpl; [by exists pre|].
    exists ((i, consumed st st1) :: new). split; [by rewrite Hc|].
    constructor; [|done]. simpl. rewrite (consumed_prefix _ _ pre Hpre), Hpre.
    exists [], (rest st1). done.
  - destruct (at_boundary st); [|done]. intros Hk. exists st.
    split; [apply extends_refl|done].
  - intros k st res Hk. eapply rep_sound; [exact IH|exact Hk].
Qed.

Lemma exec_seqs_last (rs : list regex) (r : regex) (k : state → option state)
    (st res : state) :
  exec (seqs (rs ++ [r])) k st = Some res →
  ∃ st1, extends st st1 ∧ exec r k st1 = Some res.
Proof.
  revert st. induction rs as [|r0 rs IH]; intros st; simpl.
  - intros H. exists st. split; [apply extends_refl|done].
  - intros (st1 & Hext & (st2 & Hext2 & H)%IH)%exec_sound. exists st2.
    split; [by eapply extends_trans|done].
Qed.

Lemma match_at_extends (r : regex) (pv : option ascii) (s : str) (res : state) :
  match_at r pv s = Some res →
  extends {| prev := pv; rest := s; caps := [] |} res.
Proof. by intros (st' & Hext & [= ->])%exec_sound. Qed.

Lemma finditer_go_match (r : regex) (s : str) (fuel : nat) :
  ∀ pv s' pre, s = pre ++ s' →
  Forall (λ m, ∃ pre' pv' s'', s = pre' ++ s'' ∧ match_at r pv' s'' = Some (snd m))
    (finditer_go r fuel pv s').
Proof.
  induction fuel as [|fuel IH]; intros pv s' pre Hs; simpl; [constructor|].
  destruct (match_at r pv s') as [res|] eqn:Hm.
  - pose proof (match_at_extends _ _ _ _ Hm) as [[p0 Hp0] _]. simpl in Hp0.
    assert (∃ pre' pv' s'', s = pre' ++ s'' ∧ match_at r pv' s'' = Some res) as Hhere
      by (by exists pre, pv, s').
    destruct (take (length s' - length (rest res)) s') as [|m0 m]; [destruct s' as [|c s'']|].
    + by repeat constructor.
    + constructor; [done|]. apply (IH _ _ (pre ++ [c])). by rewrite <- app_assoc.
    + constructor; [done|]. apply (IH _ _ (pre ++ p0)). by rewrite <- app_assoc, <- Hp0.
  - destruct s' as [|c s'']; [constructor|].
    apply (IH _ _ (pre ++ [c])). by rewrite <- app_assoc.
Qed.

Lemma finditer_match (r : regex) (s : str) :
  Forall (λ m, ∃ pre' pv' s'', s = pre' ++ s'' ∧ match_at r pv' s'' = Some (snd m))
    (finditer r s).
Proof. by apply (finditer_go_match r s _ None s []). Qed.

Lemma group_infix (i : nat) (st : state) (s : str) :
  Forall (λ c, infix_of (snd c) s) (caps st) → infix_of (group i st) s.
Proof.
  intros Hall. unfold group. destruct (List.find _ _) as [c|] eqn:Hfind.
  - apply find_some in Hfind as [Hin _]. rewrite Forall_forall in Hall.
    apply Hall. by apply list_elem_of_In.
  - by exists [], s.
Qed.

Lemma finditer_groups_infix (r : regex) (s : str) (i : nat) :
  Forall (λ m, infix_of (group i (snd m)) s) (finditer r s).
Proof.
  eapply Forall_impl; [apply finditer_match|].
  intros m (pre & pv & s' & -> & Hm). apply group_infix.
  apply match_at_extends in Hm as [_ (new & Hc & Hn)]. simpl in *.
  rewrite Hc, app_nil_r. eapply Forall_impl; [exact Hn|].
  intros c Hc'. by apply infix_of_app_l.
Qed.

Lemma skip_snd (p : ascii → bool) (pv : option ascii) (s : str) :
  snd (skip p pv s) = Str.drop_while p s.
Proof.
  revert pv. induction s as [|c s IH]; intros pv; simpl; [done|].
  destruct (p c); [apply IH|done].
Qed.

Lemma drop_while_head (p : ascii → bool) (s : str) :
  match Str.drop_while p s with c :: _ => p c = false | [] => True end.
Proof.
  induction s as [|c s IH]; simpl; [done|]. destruct (p c) eqn:Hc; [done|]. by simpl.
Qed.

Lemma consumed_after_run (p : ascii → bool) (st : state) :
  consumed st (after_run p st) = Str.take_while p (rest st).
Proof.
  apply consumed_prefix. simpl. by rewrite skip_snd, take_drop_while.
Qed.

(** A greedy repetition of one character class takes the longest run when
    what follows accepts the position after it. *)
Lemma rep_chr_greedy (p : ascii → bool) (lo : nat) (k : state → option state)
    (s : str) :
  ∀ fuel count pv cs,
  let st := {| prev := pv; rest := s; caps := cs |} in
  length s < fuel →
  k (after_run p st) ≠ None →
  rep (exec (Chr p)) lo None count fuel k st
  = if lo <=? count + length (Str.take_while p s) then k (after_run p st) else None.
Proof.
  induction s as [|c s IH]; intros fuel count pv cs st Hfuel Hk;
    (destruct fuel as [|fuel]; [simpl in Hfuel; lia|]); subst st.
  - simpl. by rewrite Nat.add_0_r.
  - unfold after_run in *. simpl in *. destruct (p c) eqn:Hc.
    + replace (length s <? S (length s)) with true by (symmetry; apply Nat.ltb_lt; lia).
      rewrite (IH fuel (S count) (Some c) cs) by (done || lia).
      unfold after_run. simpl.
      replace (count + S (length (Str.take_while p s)))
        with (S (count + length (Str.take_while p s))) by lia.
      destruct (S (count + length (Str.take_while p s))) as [|n] eqn:Hn; [lia|].
      destruct (lo <=? S n) eqn:Hlo.
      * by destruct (k _).
      * apply Nat.leb_gt in Hlo.
        replace (lo <=? count) with false; [done|]. symmetry. apply Nat.leb_gt. lia.
    + simpl. by rewrite Nat.add_0_r.
Qed.

Lemma exec_rep (r : regex) (lo : nat) (hi : option nat) (k : state → option state)
    (st : state) :
  exec (Rep r lo hi) k st = rep (exec r) lo hi 0 (S (length (rest st))) k st.
Proof. done. Qed.

Lemma exec_plus_chr (p : ascii → bool) (k : state → option state) (st res : state) :
  k (after_run p st) ≠ None →
  exec (plus (Chr p)) k st = Some res →
  Str.take_while p (rest st) ≠ [] ∧ k (after_run p st) = Some res.
Proof.
  intros Hk. unfold plus. rewrite exec_rep. destruct st as [pv s cs].
  rewrite (rep_chr_greedy p 1 k s) by (done || simpl; lia).
  simpl. destruct (Str.take_while p s); [done|]. by simpl.
Qed.

(** An optional part that cannot start where the text stands is left out. *)
Lemma exec_opt_fails (r : regex) (k : state → option state) (st : state) :
  (∀ k', exec r k' st = None) → exec (opt r) k st = k st.
Proof. intros Hr. unfold opt. rewrite exec_rep. simpl. by rewrite Hr. Qed.

Lemma takes_run_plus (p : ascii → bool) : takes_run p (plus (Chr p)).
Proof. intros k st res Hk. by apply exec_plus_chr. Qed.

Lemma takes_run_plus_opt (p : ascii → bool) (r : regex) :
  (∀ k st, match rest st with c :: _ => p c = false | [] => True end →
           exec r k st = None) →
  takes_run p (seqs [plus (Chr p); opt r]).
Proof.
  intros Hr k st res Hk.
  change (exec (seqs [plus (Chr p); opt r]) k st)
    with (exec (plus (Chr p)) (λ st', exec (opt r) k st') st).
  assert (exec (opt r) k (after_run p st) = k (after_run p st)) as Hopt.
  { apply exec_opt_fails. intros k'. apply Hr. simpl. rewrite skip_snd.
    apply drop_while_head. }
  intros H. apply exec_plus_chr in H; [by rewrite Hopt in H|]. by rewrite Hopt.
Qed.

Lemma group_set_cap (i : nat) (captured : str) (st : state) :
  group i (set_cap i captured st) = captured.
Proof. unfold group. simpl. by rewrite Nat.eqb_refl. Qed.

(** When an expression ends with a group that reads a run, every match
    captures a longest run of the text. *)
Lemma finditer_last_group (rs : list regex) (i : nat) (body : regex)
    (p : ascii → bool) (s : str) :
  takes_run p body →
  Forall (λ m, maximal_run p (group i (snd m)) s)
    (finditer (seqs (rs ++ [Group i body])) s).
Proof.
  intros Hbody. eapply Forall_impl; [apply finditer_match|].
  intros m (pre & pv & s' & -> & Hm). unfold match_at in Hm.
  apply exec_seqs_last in Hm as (st1 & [[pre1 Hpre1] _] & Hm). simpl in Hpre1, Hm.
  apply Hbody in Hm as [Hne [= <-]]; [|done].
  rewrite group_set_cap, consumed_after_run. split_and!; [done|apply take_while_Forall|].
  exists (pre ++ pre1), (Str.drop_while p (rest st1)). split.
  - by rewrite Hpre1, <- app_assoc, take_drop_while.
  - apply drop_while_head.
Qed.

Lemma maximal_run_infix (p : ascii → bool) (run s : str) :
  maximal_run p run s → infix_of run s.
Proof. intros (_ & _ & pre & suf & -> & _). by exists pre, suf. Qed.

End RegexEngine.

(** * The deterministic extraction of concepts *)

Section Fallback.
Import Regex RegexSpec TextSpec FallbackExtraction FallbackSpec.
Import MisconceptionDetector SplitSpec ConceptSpec.

Lemma plain_false (c : ascii) : plain c = false → c = ","%char ∨ c = "."%char.
Proof.
  unfold plain. intros H%negb_false_iff. by apply bool_decide_eq_true in H.
Qed.

(** The parenthesised part of the prediction expression starts with an
    opening parenthesis, so it cannot start at a comma, at a period or at
    the end of the text. *)
Lemma parenthesised_needs_paren (k : state → option state) (st : state) :
  match rest st with c :: _ => plain c = false | [] => True end →
  exec (seqs [lit "("; plus (Chr (λ c, negb (bool_decide (c = ")"%char)))); lit ")"]) k st
  = None.
Proof.
  destruct st as [pv [|c s] cs]; [done|]. simpl rest.
  by intros [-> | ->]%plain_false.
Qed.

Lemma prediction_runs (s : str) :
  Forall (λ x, maximal_run plain x s) (findall1 prediction s).
Proof.
  unfold findall1. apply List.Forall_map.
  apply (finditer_last_group
           [lit_nocase "predict"; opt (Chr (is_char_nocase "s")); plus space]).
  apply takes_run_plus_opt. apply parenthesised_needs_paren.
Qed.

Lemma definition_runs (s : str) :
  Forall (λ d, infix_of (fst d) s ∧ maximal_run plain (snd d) s) (findall2 definition s).
Proof.
  unfold findall2. apply List.Forall_map. apply Forall_and. split.
  - apply finditer_groups_infix.
  - apply (finditer_last_group
             [WordB; Group 1 (Seq (Chr Char.isupper_az) (plus (Chr Char.isupper_az)));
              plus space; lit "stand"; opt (lit "s"); plus space; lit "for"; plus space]).
    apply takes_run_plus.
Qed.

Lemma capability_runs (s : str) :
  Forall (λ x, maximal_run plain x s) (findall1 capability s).
Proof.
  unfold findall1. apply List.Forall_map.
  apply (finditer_last_group
           [WordB;
            alts [ Seq (lit_nocase "use") (opt (Chr (is_char_nocase "s")));
                   Seq (lit_nocase "include") (opt (Chr (is_char_nocase "s")));
                   Seq (lit_nocase "provide") (opt (Chr (is_char_nocase "s")));
                   Seq (lit_nocase "offer") (opt (Chr (is_char_nocase "s")));
                   seqs [lit_nocase "relies"; plus space; lit_nocase "on"] ];
            plus space]).
  apply takes_run_plus.
Qed.

Lemma findall1_infix (r : regex) (s : str) :
  Forall (λ x, infix_of x s) (findall1 r s).
Proof. unfold findall1. apply List.Forall_map. apply finditer_groups_infix. Qed.

Lemma infix_of_length (s t : str) : infix_of s t → length s ≤ length t.
Proof. intros (pre & suf & ->). rewrite !length_app. lia. Qed.

Lemma Forall_infix (P : ascii → Prop) (s t : str) :
  infix_of s t → Forall P t → Forall P s.
Proof.
  intros (pre & suf & ->) H. apply Forall_app in H as [_ H].
  by apply Forall_app in H as [H _].
Qed.

Lemma elem_of_map {A B} (f : A → B) (l : list A) (y : B) :
  y ∈ map f l ↔ ∃ x, y = f x ∧ x ∈ l.
Proof. apply (list_elem_of_fmap f). Qed.

(** X17.  In a sentence, every prediction captured after [predict] or
    [predicts], every right-hand side captured after [stands for] and every
    capability captured after [uses], [includes], [provides], [offers] or
    [relies on] is a non-empty run of characters other than comma and
    period, and it stops at a comma, at a period or at the end of the
    sentence.  So the optional parenthesised part of the prediction
    expression never takes part in a match. *)
Theorem X17_run_captures (s : str) :
  Forall (λ x, maximal_run plain x s) (findall1 prediction s)
  ∧ Forall (λ d, infix_of (fst d) s ∧ maximal_run plain (snd d) s) (findall2 definition s)
  ∧ Forall (λ x, maximal_run plain x s) (findall1 capability s).
Proof.
  split_and!; [apply prediction_runs | apply definition_runs | apply capability_runs].
Qed.

(** X18.  Of a sentence at most three capability facts are kept, and each
    of them has no whitespace at either end, is longer than 5 characters,
    does not start with an article, holds neither comma nor period, and is
    a part of the sentence. *)
Theorem X18_kept_capabilities (sentence : str) :
  length (kept_capabilities sentence) ≤ 3
  ∧ Forall (λ cap, trimmed cap ∧ 5 < length cap ∧ starts_with_article cap = false
                   ∧ Forall (λ c, plain c = true) cap ∧ infix_of cap sentence)
      (kept_capabilities sentence).
Proof.
  unfold kept_capabilities. split.
  - etrans; [apply List.filter_length_le|]. rewrite length_map, length_take. lia.
  - apply Forall_forall. intros cap Hcap.
    apply list_elem_of_In, filter_In in Hcap as [Hin Hkeep].
    apply list_elem_of_In, elem_of_map in Hin as (x & -> & Hx).
    apply andb_true_iff in Hkeep as [Hlen Hart].
    apply Nat.ltb_lt in Hlen. apply negb_true_iff in Hart.
    assert (x ∈ findall1 capability sentence) as Hx'
      by (eapply elem_of_sublist; [exact Hx|apply sublist_take]).
    pose proof (capability_runs sentence) as Hruns. rewrite Forall_forall in Hruns.
    destruct (Hruns x Hx') as (_ & Hplain & pre & suf & Hs & _).
    split_and!; [apply strip_trimmed|done|done| |].
    + eapply Forall_infix; [apply strip_infix|done].
    + eapply infix_of_trans; [apply strip_infix|]. by exists pre, suf.
Qed.

Lemma fallback_fold_elem (sentences : list str) (concepts : gset str) (c : str) :
  c ∈ fold_left fallback_step sentences concepts
  ↔ c ∈ concepts
    ∨ ∃ s, s ∈ sentences ∧ 12 ≤ length (Str.strip s)
           ∧ c ∈ sentence_concepts (Str.strip s).
Proof.
  revert concepts. induction sentences as [|s sentences IH]; intros concepts; cbn [fold_left].
  - split; [by left|]. intros [H|(s & Hs & _)]; [done|]. by apply elem_of_nil in Hs.
  - rewrite IH. unfold fallback_step.
    destruct (length (Str.strip s) <? 12) eqn:Hlen.
    + apply Nat.ltb_lt in Hlen. split.
      * intros [H|(s' & Hs' & H)]; [by left|]. right. exists s'.
        split; [by apply list_elem_of_further|done].
      * intros [H|(s' & Hs' & Hl & H)]; [by left|]. right. exists s'.
        apply elem_of_cons in Hs' as [->|Hs']; [lia|done].
    + apply Nat.ltb_ge in Hlen. rewrite elem_of_union. split.
      * intros [[H|H]|(s' & Hs' & H)]; [by left| |].
        -- right. exists s. split; [apply list_elem_of_here|done].
        -- right. exists s'. split; [by apply list_elem_of_further|done].
      * intros [H|(s' & Hs' & Hl & H)]; [by left; left|].
        apply elem_of_cons in Hs' as [->|Hs']; [by left; right|].
        right. by exists s'.
Qed.

Lemma provenance_mono (sentence text c : str) :
  infix_of sentence text → provenance sentence c → provenance text c.
Proof.
  intros Hin [[H Ht]|[(src & H & ->)|(abbr & d & Ha & Hd & ->)]].
  - left. split; [by eapply infix_of_trans|done].
  - right; left. exists src. split; [by eapply infix_of_trans|done].
  - right; right. exists abbr, d. split_and!; [by eapply infix_of_trans..|done].
Qed.

Lemma sentence_concepts_provenance (sentence c : str) :
  c ∈ sentence_concepts sentence → provenance sentence c.
Proof.
  unfold sentence_concepts.
  rewrite !elem_of_union, !elem_of_list_to_set, !elem_of_map.
  pose proof (findall1_infix number_fact sentence) as Hnum.
  pose proof (findall1_infix data_source sentence) as Hsrc.
  pose proof (findall1_infix prediction sentence) as Hpred.
  pose proof (definition_runs sentence) as Hdef.
  rewrite Forall_forall in Hnum. rewrite Forall_forall in Hsrc.
  rewrite Forall_forall in Hpred. rewrite Forall_forall in Hdef.
  intros [[[[(x & -> & Hx)|(x & -> & Hx)]|(x & -> & Hx)]|(x & -> & Hx)]|Hcap].
  - left. split; [|apply strip_trimmed].
    eapply infix_of_trans; [apply strip_infix|by apply Hnum].
  - right; left. exists x. split; [by apply Hsrc|done].
  - left. split; [|apply strip_trimmed].
    eapply infix_of_trans; [apply strip_infix|by apply Hpred].
  - right; right. destruct (Hdef x Hx) as [Ha Hd%maximal_run_infix].
    exists (fst x), (Str.strip (snd x)). split_and!; [done| |done].
    eapply infix_of_trans; [apply strip_infix|done].
  - left. unfold kept_capabilities in Hcap.
    apply list_elem_of_In, filter_In in Hcap as [Hin _].
    apply list_elem_of_In, elem_of_map in Hin as (x & -> & Hx).
    split; [|apply strip_trimmed].
    eapply infix_of_trans; [apply strip_infix|].
    pose proof (findall1_infix capability sentence) as Hcaps.
    rewrite Forall_forall in Hcaps. apply Hcaps.
    eapply elem_of_sublist; [exact Hx|apply sublist_take].
Qed.

Lemma fragments_infix (text s : str) : s ∈ re_split text → infix_of s text.
Proof.
  intros Hs. pose proof (splits_infix text _ (re_split_splits text)) as Hall.
  rewrite Forall_forall in Hall. by apply Hall.
Qed.

(** X15.  A text whose fragments between sentence ends are all shorter than
    12 characters once trimmed yields no concept; so does every text
    shorter than 12 characters. *)
Theorem X15_short_sentences (text : str) :
  (Forall (λ s, length (Str.strip s) < 12) (re_split text) →
   _extract_from_text_fallback text = ∅)
  ∧ (length text < 12 → _extract_from_text_fallback text = ∅).
Proof.
  assert (Forall (λ s, length (Str.strip s) < 12) (re_split text) →
          _extract_from_text_fallback text = ∅) as Hshort.
  { intros Hall. apply leibniz_equiv, elem_of_equiv_empty. intros c.
    unfold _extract_from_text_fallback. rewrite fallback_fold_elem.
    intros [H|(s & Hs & Hlen & _)]; [by apply elem_of_empty in H|].
    rewrite Forall_forall in Hall. specialize (Hall s Hs). lia. }
  split; [exact Hshort|]. intros Hlen. apply Hshort, Forall_forall. intros s Hs.
  pose proof (infix_of_length _ _ (strip_infix s)).
  pose proof (infix_of_length _ _ (fragments_infix text s Hs)). lia.
Qed.

Lemma X15_witness :
  _extract_from_text_fallback (py "It uses x. It offers y! Use 2 labs") = ∅
  ∧ _extract_from_text_fallback (py "predicts x") = ∅.
Proof.
  split.
  - apply (proj1 (X15_short_sentences (py "It uses x. It offers y! Use 2 labs"))).
    apply (bool_decide_unpack _). vm_compute. reflexivity.
  - apply (proj2 (X15_short_sentences (py "predicts x"))). vm_compute. lia.
Defined.

(** X16.  The extraction invents no text: every concept it returns is a
    part of the text without whitespace at its ends, or [data from]
    followed by a part of the text, or a part of the text followed by
    [stands for] and another part of the text. *)
Theorem X16_concept_provenance (text c : str) :
  c ∈ _extract_from_text_fallback text → provenance text c.
Proof.
  unfold _extract_from_text_fallback. rewrite fallback_fold_elem.
  intros [H|(s & Hs & _ & Hc)]; [by apply elem_of_empty in H|].
  apply (provenance_mono (Str.strip s)); [|by apply sentence_concepts_provenance].
  eapply infix_of_trans; [apply strip_infix|by apply fragments_infix].
Qed.

Lemma X16_witness :
  py "the risk of placement"
    ∈ _extract_from_text_fallback
        (py "The AFST predicts the risk of placement, and it uses data from 21 sources.")
  ∧ provenance
      (py "The AFST predicts the risk of placement, and it uses data from 21 sources.")
      (py "the risk of placement").
Proof.
  assert (py "the risk of placement"
            ∈ _extract_from_text_fallback
                (py "The AFST predicts the risk of placement, and it uses data from 21 sources."))
    as Hin by (apply (bool_decide_unpack _); vm_compute; reflexivity).
  split; [exact Hin|]. by apply X16_concept_provenance.
Defined.

End Fallback.

(** * Extraction without a language model *)

Section Offline.
Import Regex RegexSpec TextSpec FallbackExtraction FallbackSpec.
Import MisconceptionDetector SplitSpec ConceptSpec ConceptDetector.

(** X19.  Without a language model, [extract_concepts_from_text] returns
    only concepts without whitespace at their ends, each a part of a
    concept of one of the three shapes the deterministic extraction builds
    from the text; and it returns nothing for a text shorter than 12
    characters. *)
Theorem X19_offline_extraction (llm : str → gset str) (text d : str) :
  d ∈ extract_concepts_from_text false llm _extract_from_text_fallback text →
  trimmed d ∧ (∃ c, provenance text c ∧ infix_of d c) ∧ 12 ≤ length text.
Proof.
  unfold extract_concepts_from_text. destruct (bool_decide _); [by intros ?%elem_of_empty|].
  intros (c & Hc & Hclean)%elem_of_filter_concepts.
  unfold _extract_from_text_fallback in Hc. apply fallback_fold_elem in Hc.
  destruct Hc as [Hc|(s & Hs & Hlen & Hc)]; [by apply elem_of_empty in Hc|].
  pose proof (fragments_infix text s Hs) as Hfrag.
  split_and!.
  - by destruct (clean_concept_image c d Hclean).
  - exists c. split; [|by apply clean_concept_infix].
    apply (provenance_mono (Str.strip s)); [|by apply sentence_concepts_provenance].
    eapply infix_of_trans; [apply strip_infix|done].
  - pose proof (infix_of_length _ _ (strip_infix s)).
    pose proof (infix_of_length _ _ Hfrag). lia.
Qed.

Lemma X19_witness :
  py "the risk of placement"
    ∈ extract_concepts_from_text false (λ _, ∅) _extract_from_text_fallback
        (py "The AFST predicts the risk of placement, and it uses data from 21 sources.")
  ∧ trimmed (py "the risk of placement")
  ∧ (∃ c, provenance
            (py "The AFST predicts the risk of placement, and it uses data from 21 sources.") c
          ∧ infix_of (py "the risk of placement") c)
  ∧ 12 ≤ length (py "The AFST predicts the risk of placement, and it uses data from 21 sources.").
Proof.
  assert (py "the risk of placement"
            ∈ extract_concepts_from_text false (λ _, ∅) _extract_from_text_fallback
                (py "The AFST predicts the risk of placement, and it uses data from 21 sources."))
    as Hin by (apply (bool_decide_unpack _); vm_compute; reflexivity).
  split; [exact Hin|]. exact (X19_offline_extraction _ _ _ Hin).
Defined.

End Offline.
